(** * depstat: the graph-traversal engine of [cmd/why.go] and [cmd/stats.go]

    A shallow embedding of the four traversals of the dependency graph
    ([computeReachableToTarget], [computePathSubgraph], [findAllPaths],
    [getLongestChain]) and the properties the specification states about
    them.

    Conventions of the embedding:
    - a Go [map[string][]string] is a [gmap string (list string)], a
      [map[string]bool] is a [gmap string bool]; reading a missing key yields
      the zero value ([mapGet], [succs], [stateGet]);
    - a Go [int] is a [Z]; [len] of a slice is [Z.of_nat (length _)];
    - a slice is a list; [nil] and the empty slice are both [[]];
    - recursion and [for len(queue) > 0] loops carry a [fuel : nat]; running
      out of fuel is [None], and for each function a bound on the fuel that
      always suffices is proved. *)

From stdpp Require Import gmap strings list fin_maps sorting relations.
From Stdlib Require Import ZArith Lia Ascii.

Open Scope Z_scope.

(* naive_solver clears hypotheses that its own steps already consumed *)
Set Warnings "-clear-no-such-hyp".

(** ** Data model *)

Abbreviation Graph := (gmap string (list string)).
Abbreviation BoolMap := (gmap string bool).
Abbreviation Chain := (list string).

(** [m[k]] on a [map[string]bool]: [false] when the key is missing. *)
Definition mapGet (m : BoolMap) (k : string) : bool := default false (m !! k).

(** [graph[k]] on a [map[string][]string]: the nil slice when missing. *)
Definition succs (graph : Graph) (k : string) : list string :=
  default [] (graph !! k).

(** [len(s)] as a Go [int]. *)
Definition len {A} (s : list A) : Z := Z.of_nat (length s).

(** [X -> Y] is an edge when [Y] is listed among the successors of [X]. *)
Definition edge (graph : Graph) (x y : string) : Prop := y ∈ succs graph x.

(** A node occurs in the graph as a key or as somebody's successor. *)
Definition occurs (graph : Graph) (x : string) : Prop :=
  x ∈ dom graph ∨ ∃ k, edge graph k x.

(** Every consecutive pair of the sequence is an edge. *)
Fixpoint chained (graph : Graph) (p : list string) : Prop :=
  match p with
  | x :: (y :: _) as q => edge graph x y ∧ chained graph q
  | _ => True
  end.

Global Instance edge_dec g x y : Decision (edge g x y).
Proof. unfold edge. apply _. Defined.

Global Instance chained_dec g p : Decision (chained g p).
Proof.
  induction p as [|x p IH]; [left; exact I|].
  destruct p as [|y p]; [left; exact I|]. simpl. apply _.
Defined.

(** ** [findAllPaths] (why.go) *)

Section FindAllPaths.
(** The package-level variable [whyMaxDepth]. *)
Variable whyMaxDepth : Z.
Variable target : string.
Variable graph : Graph.
Variable reachable : BoolMap.
Variable maxPaths : Z.

(** [maxPaths > 0 && len(out) >= maxPaths], [out] the slice behind the
    pointer. *)
Definition budgetSpent (out : list (list string)) : bool :=
  (0 <? maxPaths) && (maxPaths <=? len out).

(** [whyMaxDepth > 0 && len(currentPath) >= whyMaxDepth] *)
Definition tooDeep (currentPath : list string) : bool :=
  (0 <? whyMaxDepth) && (whyMaxDepth <=? len currentPath).

(** The body of [for _, next := range graph[start]]; [rec] is the
    recursive call with everything but the node and the mutable state
    fixed. *)
Fixpoint pathsLoop
    (rec : string → BoolMap → list (list string) →
           option (BoolMap * list (list string)))
    (nexts : list string) (visited : BoolMap) (out : list (list string))
    : option (BoolMap * list (list string)) :=
  match nexts with
  | [] => Some (visited, out)
  | next :: rest =>
      if negb (mapGet reachable next) then pathsLoop rec rest visited out
      else
        match rec next visited out with
        | None => None
        | Some (visited', out') =>
            if budgetSpent out' then Some (visited', out')
            else pathsLoop rec rest visited' out'
        end
  end.

(** The state is the pair of the [visited] map and the slice behind
    [out]; the deferred [visited[start] = false] runs on the way out of
    the loop. *)
Fixpoint findAllPaths (fuel : nat) (start : string)
    (currentPath : list string) (visited : BoolMap)
    (out : list (list string)) : option (BoolMap * list (list string)) :=
  match fuel with
  | O => None
  | S fuel' =>
      if bool_decide (start = target) then
        Some (visited, out ++ [currentPath ++ [start]])
      else if budgetSpent out then Some (visited, out)
      else if negb (mapGet reachable start) then Some (visited, out)
      else if tooDeep currentPath then Some (visited, out)
      else
        let currentPath := currentPath ++ [start] in
        if mapGet visited start then Some (visited, out)
        else
          let visited := <[start := true]> visited in
          match pathsLoop
                  (λ next v o, findAllPaths fuel' next currentPath v o)
                  (succs graph start) visited out with
          | None => None
          | Some (visited', out') => Some (<[start := false]> visited', out')
          end
  end.
End FindAllPaths.

(** ** [computeReachableToTarget] (why.go) *)

(** [reverse[to] = append(reverse[to], from)] for every [to] of one entry. *)
Definition addReverse (reverse : Graph) (from : string) (tos : list string)
    : Graph :=
  foldl (λ rev to, <[to := succs rev to ++ [from]]> rev) reverse tos.

(** The reverse adjacency list; [entries] are the key/value pairs of the
    graph in the order in which [range graph] happens to deliver them. *)
Definition buildReverse (entries : list (string * list string)) : Graph :=
  foldl (λ rev e, addReverse rev e.1 e.2) ∅ entries.

(** [for _, prev := range reverse[cur]] with its effect on [reachable] and
    [queue]. *)
Fixpoint reverseMark (prevs : list string) (reachable : BoolMap)
    (queue : list string) : BoolMap * list string :=
  match prevs with
  | [] => (reachable, queue)
  | prev :: rest =>
      if negb (mapGet reachable prev)
      then reverseMark rest (<[prev := true]> reachable) (queue ++ [prev])
      else reverseMark rest reachable queue
  end.

(** [for len(queue) > 0]: one unit of fuel for each node taken off the
    queue. *)
Fixpoint reverseLoop (fuel : nat) (reverse : Graph) (reachable : BoolMap)
    (queue : list string) : option BoolMap :=
  match queue with
  | [] => Some reachable
  | cur :: queue' =>
      match fuel with
      | O => None
      | S fuel' =>
          let '(reachable', queue'') :=
            reverseMark (succs reverse cur) reachable queue' in
          reverseLoop fuel' reverse reachable' queue''
      end
  end.

Definition computeReachableToTarget (fuel : nat) (target : string)
    (entries : list (string * list string)) : option BoolMap :=
  let reverse := buildReverse entries in
  reverseLoop fuel reverse {[target := true]} [target].

(** ** [computePathSubgraph] (why.go) *)

(** Modelled from the spec: the declaration of [svgEdge] is not part of the
    sources at hand; the spec describes the edge record as an ordered pair
    (from, to) used as a set element and compared by both fields, and the
    code builds it as [svgEdge{From: cur, To: next}]. *)
Record svgEdge := { From : string; To : string }.

Global Instance svgEdge_eq_dec : EqDecision svgEdge.
Proof. solve_decision. Defined.

Global Instance svgEdge_countable : Countable svgEdge.
Proof.
  apply (inj_countable' (λ e, (From e, To e))
                        (λ p, {| From := p.1; To := p.2 |})).
  by intros [].
Defined.

(** [sort.Strings]: ascending in the byte-wise order of Go strings, which is
    [String.le]. *)
Definition sortStrings (l : list string) : list string :=
  merge_sort String.le l.

Definition visitUnseen : Z := 0.
Definition visitActive : Z := 1.
Definition visitDone : Z := 2.

(** [state[k]] on the [map[string]int]: [0] when the key is missing. *)
Definition stateGet (state : gmap string Z) (k : string) : Z :=
  default 0 (state !! k).

(** The start nodes that can reach the target seed [forward] and the
    queue. *)
Fixpoint seedForward (mainModules : list string) (reachable : BoolMap)
    (forward : BoolMap) (queue : list string) : BoolMap * list string :=
  match mainModules with
  | [] => (forward, queue)
  | m :: rest =>
      if mapGet reachable m
      then seedForward rest reachable (<[m := true]> forward) (queue ++ [m])
      else seedForward rest reachable forward queue
  end.

(** [for _, next := range graph[cur]] of the forward search. *)
Fixpoint forwardMark (nexts : list string) (reachable : BoolMap)
    (forward : BoolMap) (queue : list string) : BoolMap * list string :=
  match nexts with
  | [] => (forward, queue)
  | next :: rest =>
      if mapGet reachable next && negb (mapGet forward next)
      then forwardMark rest reachable (<[next := true]> forward)
                       (queue ++ [next])
      else forwardMark rest reachable forward queue
  end.

Fixpoint forwardLoop (fuel : nat) (graph : Graph) (reachable : BoolMap)
    (forward : BoolMap) (queue : list string) : option BoolMap :=
  match queue with
  | [] => Some forward
  | cur :: queue' =>
      match fuel with
      | O => None
      | S fuel' =>
          let '(forward', queue'') :=
            forwardMark (succs graph cur) reachable forward queue' in
          forwardLoop fuel' graph reachable forward' queue''
      end
  end.

(** [for _, to := range graph[from] { if nodeSet[to] { adj[from] =
    append(adj[from], to) } }] *)
Definition addAdj (nodeSet : BoolMap) (adj : Graph) (from : string)
    (tos : list string) : Graph :=
  foldl (λ a to, if mapGet nodeSet to
                 then <[from := succs a from ++ [to]]> a else a) adj tos.

(** [sort.Strings(adj[from])] sorts the stored slice in place; on a missing
    key it sorts the nil slice and stores nothing. *)
Definition sortAdj (adj : Graph) (from : string) : Graph :=
  match adj !! from with
  | Some l => <[from := sortStrings l]> adj
  | None => adj
  end.

Definition buildAdj (graph : Graph) (nodeSet : BoolMap) (nodes : list string)
    : Graph :=
  foldl (λ a from, sortAdj (addAdj nodeSet a from (succs graph from)) from)
        ∅ nodes.

Section Dfs.
Variable adj : Graph.

(** [for _, next := range adj[cur]] with the three-way switch on the
    state of [next]; [rec] is the recursive call [dfs(next)]. *)
Fixpoint dfsLoop
    (rec : string → gmap string Z → gset svgEdge →
           option (gmap string Z * gset svgEdge))
    (cur : string) (nexts : list string) (state : gmap string Z)
    (edgeSet : gset svgEdge) : option (gmap string Z * gset svgEdge) :=
  match nexts with
  | [] => Some (state, edgeSet)
  | next :: rest =>
      match stateGet state next with
      | 0 =>
          match rec next state ({[ {| From := cur; To := next |} ]} ∪ edgeSet)
          with
          | None => None
          | Some (state', edgeSet') => dfsLoop rec cur rest state' edgeSet'
          end
      | 1 => dfsLoop rec cur rest state edgeSet
      | _ =>
          dfsLoop rec cur rest state
                  ({[ {| From := cur; To := next |} ]} ∪ edgeSet)
      end
  end.

(** The closure [dfs]; [state] and [edgeSet] are the two captured maps. *)
Fixpoint dfs (fuel : nat) (cur : string) (state : gmap string Z)
    (edgeSet : gset svgEdge) : option (gmap string Z * gset svgEdge) :=
  match fuel with
  | O => None
  | S fuel' =>
      let state := <[cur := visitActive]> state in
      match dfsLoop (dfs fuel') cur (succs adj cur) state edgeSet with
      | None => None
      | Some (state', edgeSet') => Some (<[cur := visitDone]> state', edgeSet')
      end
  end.

(** [for _, node := range nodes { if state[node] == visitUnseen
    { dfs(node) } }] *)
Fixpoint dfsAll (fuel : nat) (nodes : list string) (state : gmap string Z)
    (edgeSet : gset svgEdge) : option (gmap string Z * gset svgEdge) :=
  match nodes with
  | [] => Some (state, edgeSet)
  | node :: rest =>
      if bool_decide (stateGet state node = visitUnseen) then
        match dfs fuel node state edgeSet with
        | None => None
        | Some (state', edgeSet') => dfsAll fuel rest state' edgeSet'
        end
      else dfsAll fuel rest state edgeSet
  end.
End Dfs.

(** The keys of [nodeSet] arrive in the unspecified order of [range]; the
    call of [sort.Strings] that follows makes [nodes] independent of it
    ([sortStrings_order_irrelevant] below), so the order of [map_to_list] is
    as good as any. *)
Definition computePathSubgraph (fuel : nat) (mainModules : list string)
    (graph : Graph) (reachable : BoolMap) : option (BoolMap * gset svgEdge) :=
  let '(forward, queue) := seedForward mainModules reachable ∅ [] in
  match forwardLoop fuel graph reachable forward queue with
  | None => None
  | Some forward =>
      let nodeSet := forward in
      let nodes := sortStrings (map_to_list nodeSet).*1 in
      let adj := buildAdj graph nodeSet nodes in
      match dfsAll adj fuel nodes ∅ ∅ with
      | None => None
      | Some (_, edgeSet) => Some (nodeSet, edgeSet)
      end
  end.

(** ** [getLongestChain] (stats.go) *)

(** Modelled from the spec: the helper [contains] is not part of the sources
    at hand; the spec reads the test as "[node] already appears in
    [activeChain]". *)
Definition contains (s : list string) (x : string) : bool :=
  bool_decide (x ∈ s).

Section LongestChain.
Variable graph : Graph.

(** [for _, dep := range deps], keeping the first chain among the longest;
    [rec] is the recursive call on one dependency. *)
Fixpoint chainLoop
    (rec : string → gmap string Chain → option (Chain * gmap string Chain))
    (deps : list string) (longestDepChain : Chain)
    (longestChains : gmap string Chain)
    : option (Chain * gmap string Chain) :=
  match deps with
  | [] => Some (longestDepChain, longestChains)
  | dep :: rest =>
      match rec dep longestChains with
      | None => None
      | Some (depChain, longestChains') =>
          if len longestDepChain <? len depChain
          then chainLoop rec rest depChain longestChains'
          else chainLoop rec rest longestDepChain longestChains'
      end
  end.

(** Returns the chain together with the memo table [longestChains] as the
    call leaves it. *)
Fixpoint getLongestChain (fuel : nat) (currentDep : string)
    (currentChain : Chain) (longestChains : gmap string Chain)
    : option (Chain * gmap string Chain) :=
  match fuel with
  | O => None
  | S fuel' =>
      match longestChains !! currentDep with
      | Some longestChain => Some (longestChain, longestChains)
      | None =>
          let deps := succs graph currentDep in
          if len deps =? 0 then
            Some ([currentDep], <[currentDep := [currentDep]]> longestChains)
          else if contains currentChain currentDep then
            Some ([], longestChains)
          else
            let currentChain := currentChain ++ [currentDep] in
            match chainLoop
                    (λ dep memo, getLongestChain fuel' dep currentChain memo)
                    deps [] longestChains with
            | None => None
            | Some (longestDepChain, longestChains') =>
                let chain := currentDep :: longestDepChain in
                Some (chain, <[currentDep := chain]> longestChains')
            end
      end
  end.
End LongestChain.

(** ** Worked examples from the tests and the specification *)

Definition diamond : Graph :=
  {[ "A" := ["B"; "C"]; "B" := ["D"]; "C" := ["D"] ]}.

Definition allOf (l : list string) : BoolMap :=
  list_to_map ((λ x, (x, true)) <$> l).

Definition chain5 : Graph :=
  {[ "A" := ["B"]; "B" := ["C"]; "C" := ["D"]; "D" := ["E"] ]}.

Definition deadEnd : Graph :=
  {[ "A" := ["B"; "C"]; "B" := ["D"]; "C" := ["E"] ]}.

Definition triangle : Graph :=
  {[ "A" := ["B"]; "B" := ["C"]; "C" := ["A"; "D"] ]}.

Definition mkEdge (x y : string) : svgEdge := {| From := x; To := y |}.

(** ** The search of [runWhy] over the main modules (why.go) *)

(** [for from, tos := range depGraph.Graph { for _, to := range tos { if to
    == target { result.DirectDeps = append(result.DirectDeps, from) } } }]
    followed by [sort.Strings(result.DirectDeps)]; [entries] are the
    key/value pairs in the order [range] delivers them. *)
Definition directDeps (target : string)
    (entries : list (string * list string)) : list string :=
  sortStrings
    (foldl (λ deps e,
              foldl (λ deps to,
                       if bool_decide (to = target) then deps ++ [e.1]
                       else deps) deps e.2) [] entries).

(** [anyMainReachable]: some main module is marked in [reachable]. *)
Definition anyMainReachable (mainModules : list string) (reachable : BoolMap)
    : bool :=
  existsb (mapGet reachable) mainModules.

(** The loop [for _, mainMod := range depGraph.MainModules] of the text and
    JSON branch. The state is [allPaths], [searchMax] and
    [result.Truncated]; a [break] ends the loop with the flag set. Every
    call of [findAllPaths] gets a fresh current path and a fresh visited
    map. *)
Fixpoint searchMains (whyMaxDepth : Z) (target : string) (graph : Graph)
    (reachable : BoolMap) (whyMaxPaths : Z) (fuel : nat)
    (mainModules : list string) (allPaths : list (list string))
    (searchMax : Z) : option (list (list string) * bool) :=
  match mainModules with
  | [] => Some (allPaths, false)
  | mainMod :: rest =>
      if negb (mapGet reachable mainMod) then
        searchMains whyMaxDepth target graph reachable whyMaxPaths fuel rest
                    allPaths searchMax
      else
        let prevCount := len allPaths in
        match findAllPaths whyMaxDepth target graph reachable searchMax fuel
                           mainMod [] ∅ allPaths with
        | None => None
        | Some (_, allPaths') =>
            let added := len allPaths' - prevCount in
            let searchMax' :=
              if 0 <? searchMax then searchMax - added else searchMax in
            if (0 <? searchMax') && (searchMax' <=? len allPaths') then
              Some (allPaths', true)
            else if (searchMax' <=? 0) && (0 <? whyMaxPaths) then
              Some (allPaths', true)
            else
              searchMains whyMaxDepth target graph reachable whyMaxPaths fuel
                          rest allPaths' searchMax'
        end
  end.

(** [WhyPath], without its JSON tags. *)
Record WhyPath := { Path : list string; Direct : bool }.

(** [isDirect := len(path) == 2 && contains(depGraph.MainModules, path[0])];
    the index is only evaluated on a path of two nodes. *)
Definition isDirect (mainModules : list string) (path : list string) : bool :=
  (len path =? 2) && contains mainModules (default "" (head path)).

(** [result.Paths] as the loop over [allPaths] builds it, before it is
    sorted. *)
Definition toWhyPaths (mainModules : list string)
    (allPaths : list (list string)) : list WhyPath :=
  (λ path, {| Path := path; Direct := isDirect mainModules path |})
    <$> allPaths.

(** ** [outputWhyDOT] (why.go) *)

(** [WhyResult], without its JSON tags; a [nil] [NodeSet] is [None], and
    [EdgeSet], which is only ever ranged over, is a set. *)
Record WhyResult := {
  Target : string;
  Found : bool;
  Paths : list WhyPath;
  DirectDeps : list string;
  MainModules : list string;
  Truncated : bool;
  TotalPaths : Z;
  NodeSet : option BoolMap;
  EdgeSet : gset svgEdge
}.

(** The double quote character, which the format strings escape. *)
Definition dq : string := String "034"%char "".

(** [fmt.Sprintf("%s -> %s", from, to)] *)
Definition edgeKey (from to : string) : string := from +:+ " -> " +:+ to.

(** [strings.Split(s, " -> ")]: cut at the leftmost occurrences of the
    separator, from left to right; [acc] is the piece being read. *)
Fixpoint splitArrow (acc : string) (s : string) : list string :=
  match s with
  | EmptyString => [acc]
  | String " "%char
      (String "-"%char (String ">"%char (String " "%char rest))) =>
      acc :: splitArrow "" rest
  | String c s' => splitArrow (acc +:+ String c "") s'
  end.

(** The keys put into [edges] for one path: one for every index [i > 0]. *)
Fixpoint pathEdgeKeys (path : list string) : list string :=
  match path with
  | x :: (y :: _) as rest => edgeKey x y :: pathEdgeKeys rest
  | _ => []
  end.

(** The map [nodes] after the first part of the function. *)
Definition dotNodes (result : WhyResult) : gset string :=
  match NodeSet result with
  | Some nodeSet => dom nodeSet
  | None => list_to_set (Paths result ≫= Path)
  end.

(** The map [edges] after the first part of the function. *)
Definition dotEdges (result : WhyResult) : gset string :=
  match NodeSet result with
  | Some _ =>
      list_to_set ((λ e, edgeKey (From e) (To e)) <$> elements (EdgeSet result))
  | None => list_to_set (Paths result ≫= λ wp, pathEdgeKeys (Path wp))
  end.

(** The fill colour of a node: the target wins over the main modules. *)
Definition nodeColor (result : WhyResult) (node : string) : string :=
  if bool_decide (node = Target result) then "#ffffcc"
  else if contains (MainModules result) node then "#ccffcc"
  else "white".


(** The node line for a given colour, as the format string spells it. *)
Definition nodeLine_of (node color : string) : string :=
  dq +:+ node +:+ dq +:+ " [fillcolor=" +:+ dq +:+ color +:+ dq +:+ "];".

Definition nodeLine (result : WhyResult) (node : string) : string :=
  nodeLine_of node (nodeColor result node).

Definition edgeLine (from to : string) : string :=
  dq +:+ from +:+ dq +:+ " -> " +:+ dq +:+ to +:+ dq +:+ ";".

(** An edge key is printed only when it splits into exactly two parts. *)
Definition edgeLines (edge : string) : list string :=
  match splitArrow "" edge with
  | [from; to] => [edgeLine from to]
  | _ => []
  end.

(** [nodeList] and [edgeList] after [sort.Strings]. *)
Definition dotNodeList (result : WhyResult) : list string :=
  sortStrings (elements (dotNodes result)).

Definition dotEdgeList (result : WhyResult) : list string :=
  sortStrings (elements (dotEdges result)).

(** What [outputWhyDOT] writes to the standard output, one entry for each
    call of [fmt.Println] or [fmt.Printf]. The second argument of the
    function is not used by it. *)
Definition outputWhyDOT (result : WhyResult) : list string :=
  ["strict digraph {";
   "graph [overlap=false, label=" +:+ dq +:+ "Why: " +:+ Target result
     +:+ dq +:+ ", labelloc=t];";
   "node [shape=box, style=filled, fillcolor=white];";
   "";
   "// Nodes"]
  ++ (nodeLine result <$> dotNodeList result)
  ++ [""; "// Edges"]
  ++ (dotEdgeList result ≫= edgeLines)
  ++ ["}"].

(** The string holds no space. *)
Fixpoint spaceFree (s : string) : Prop :=
  match s with
  | EmptyString => True
  | String c s' => c ≠ " "%char ∧ spaceFree s'
  end.

(** * Specification vocabulary *)

(** ** [findAllPaths] *)

(** What is known of [currentPath] when a call on [s] begins; [origin] is
    the node the outermost call started from. *)
Definition pathOk (D : Z) (target : string) (graph : Graph)
    (reachable : BoolMap) (origin : string) (cp : list string) (s : string)
    : Prop :=
  NoDup cp ∧ (target ∉ cp) ∧ (∀ x, x ∈ cp → mapGet reachable x = true) ∧
  (0 < D → len cp ≤ D) ∧ chained graph (cp ++ [s]) ∧
  head (cp ++ [s]) = Some origin.

(** A path is emitted as [currentPath] followed by the target. *)
Definition emitted (D : Z) (target : string) (graph : Graph)
    (reachable : BoolMap) (origin : string) (p : list string) : Prop :=
  ∃ cp, p = cp ++ [target] ∧ pathOk D target graph reachable origin cp target.

(** What one call, or one run of the loop, does to the state. *)
Definition fapPost (D : Z) (target : string) (graph : Graph)
    (reachable : BoolMap) (N : Z) (origin : string)
    (v : BoolMap) (o : list (list string))
    (v' : BoolMap) (o' : list (list string)) : Prop :=
  (∀ x, mapGet v' x = mapGet v x) ∧
  (∃ new, o' = o ++ new ∧ Forall (emitted D target graph reachable origin) new) ∧
  (0 < N → len o < N → len o' ≤ N).

(** A call gives [visited] back as it found it (up to entries that read
    [false]) and only ever appends to [out]. *)
Definition fapFrame (v : BoolMap) (o : list (list string))
    (v' : BoolMap) (o' : list (list string)) : Prop :=
  (∀ x, mapGet v' x = mapGet v x) ∧ ∃ new, o' = o ++ new.

(** A route from [n] to the target that the search, standing at [n] with
    [cp] behind it, is able to follow to the end. *)
Definition openRoute (D : Z) (target : string) (graph : Graph)
    (reachable : BoolMap) (cp : list string) (n : string) (w : list string)
    (v : BoolMap) : Prop :=
  head w = Some n ∧ last w = Some target ∧ NoDup w ∧ chained graph w ∧
  (∀ x, x ∈ w → mapGet reachable x = true) ∧
  (∀ x, x ∈ w → mapGet v x = false) ∧
  (0 < D → len cp + len w ≤ D + 1).

(** A reachability map for [target], the input [findAllPaths] expects and
    [computeReachableToTarget] builds: a node reads [true] exactly when a
    directed path of zero or more edges leads from it to the target. *)
Definition reachabilityMap (graph : Graph) (target : string)
    (reachable : BoolMap) : Prop :=
  ∀ x, mapGet reachable x = true ↔ rtc (edge graph) x target.

(** ** The two breadth-first loops *)

(** The common shape of [reverseMark]/[reverseLoop] and
    [forwardMark]/[forwardLoop]: neighbours are read with [nb], and a
    neighbour is marked and queued when [keep] accepts it and it is not
    marked yet. *)
Fixpoint genMark (keep : string → bool) (l : list string) (marked : BoolMap)
    (queue : list string) : BoolMap * list string :=
  match l with
  | [] => (marked, queue)
  | x :: rest =>
      if keep x && negb (mapGet marked x)
      then genMark keep rest (<[x := true]> marked) (queue ++ [x])
      else genMark keep rest marked queue
  end.

Fixpoint genLoop (nb : string → list string) (keep : string → bool)
    (fuel : nat) (marked : BoolMap) (queue : list string) : option BoolMap :=
  match queue with
  | [] => Some marked
  | cur :: queue' =>
      match fuel with
      | O => None
      | S fuel' =>
          let '(marked', queue'') := genMark keep (nb cur) marked queue' in
          genLoop nb keep fuel' marked' queue''
      end
  end.

(** One step of a breadth-first search: from a marked [x] to an accepted
    neighbour [y]. *)
Definition bfsStep (nb : string → list string) (keep : string → bool)
    (x y : string) : Prop :=
  y ∈ nb x ∧ keep y = true.

(** The loop invariant: the queue holds marked nodes, marked nodes are
    reached from a seed, seeds are marked, marked nodes off the queue have
    all their accepted neighbours marked, and no entry of the map reads
    [false]. *)
Definition bfsInv (nb : string → list string) (keep : string → bool)
    (seed : string → Prop) (marked : BoolMap) (queue : list string) : Prop :=
  (∀ x, x ∈ queue → mapGet marked x = true) ∧
  (∀ x, mapGet marked x = true → ∃ i, seed i ∧ rtc (bfsStep nb keep) i x) ∧
  (∀ x, seed x → mapGet marked x = true) ∧
  (∀ x y, mapGet marked x = true → x ∉ queue → bfsStep nb keep x y →
          mapGet marked y = true) ∧
  (∀ x b, marked !! x = Some b → b = true).

(** The nodes of [U] not marked yet; their number bounds the work left. *)
Definition unmarked (U : gset string) (marked : BoolMap) : gset string :=
  filter (λ x, mapGet marked x = false) U.

(** An edge both of whose ends lie inside the reachability set. *)
Definition insideEdge (graph : Graph) (reachable : BoolMap) (x y : string)
    : Prop :=
  edge graph x y ∧ mapGet reachable x = true ∧ mapGet reachable y = true.

(** ** The depth-first edge classification *)

(** The recorded edges as a relation on nodes. *)
Definition edgeRel (edgeSet : gset svgEdge) (x y : string) : Prop :=
  {| From := x; To := y |} ∈ edgeSet.

(** [fin] lists the finished nodes, the latest first; [v] was finished
    before [u] when it stands further back. *)
Definition finishedBefore (fin : list string) (u v : string) : Prop :=
  ∃ i j : nat, fin !! i = Some u ∧ fin !! j = Some v ∧ (i < j)%nat.

(** A node is finished when its state is neither [visitUnseen] nor
    [visitActive] (the [default] branch of the switch). *)
Definition finished (state : gmap string Z) (x : string) : Prop :=
  stateGet state x ≠ visitUnseen ∧ stateGet state x ≠ visitActive.

(** What every call of [dfs] leaves untouched or only lets grow. *)
Definition dfsFrame (adj : Graph) (st : gmap string Z) (E : gset svgEdge)
    (st' : gmap string Z) (E' : gset svgEdge) : Prop :=
  E ⊆ E' ∧
  (∀ x, stateGet st' x = visitUnseen → stateGet st x = visitUnseen) ∧
  (∀ x, stateGet st' x = visitActive → stateGet st x = visitActive) ∧
  (∀ x, finished st x → finished st' x) ∧
  (∀ e, e ∈ E' → e ∈ E ∨ To e ∈ succs adj (From e)).

(** The finishing order explains the recorded edges: an edge whose source
    is finished points to a node finished earlier. *)
Definition dfsInv (st : gmap string Z) (E : gset svgEdge) (fin : list string)
    : Prop :=
  NoDup fin ∧ (∀ x, x ∈ fin ↔ finished st x) ∧
  (∀ e, e ∈ E → stateGet st (From e) ≠ visitUnseen) ∧
  (∀ e, e ∈ E → From e ∈ fin → finishedBefore fin (From e) (To e)).

(** Every successor [n] of [x] other than [x] itself either has the edge
    from [x] recorded or has an outgoing edge of its own recorded. *)
Definition settled (adj : Graph) (E : gset svgEdge) (x : string) : Prop :=
  ∀ n, n ∈ succs adj x → n ≠ x →
       edgeRel E x n ∨ ∃ c, c ≠ n ∧ edgeRel E n c.

(** What a call of [dfs] adds: [new] are the nodes it finishes, all of them
    unseen before, and every edge it records leaves one of them. *)
Definition dfsPost (st : gmap string Z) (E : gset svgEdge) (fin : list string)
    (st' : gmap string Z) (E' : gset svgEdge) (new : list string) : Prop :=
  dfsInv st' E' (new ++ fin) ∧
  (∀ x, x ∈ new → stateGet st x = visitUnseen) ∧
  (∀ e, e ∈ E' → e ∈ E ∨ From e ∈ new).

(** Inside the loop of [dfs(cur)]: [cur] is active and every edge recorded
    from it so far points to a finished node. *)
Definition dfsLoopInv (cur : string) (st : gmap string Z) (E : gset svgEdge)
    (fin : list string) : Prop :=
  dfsInv st E fin ∧ stateGet st cur = visitActive ∧
  (∀ e, e ∈ E → From e = cur → To e ∈ fin).

(** Every active node already has an edge to another node recorded. *)
Definition activeLinked (st : gmap string Z) (E : gset svgEdge) : Prop :=
  ∀ x, stateGet st x = visitActive → ∃ c, c ≠ x ∧ edgeRel E x c.

(** Every finished node is settled. *)
Definition finishedSettled (adj : Graph) (st : gmap string Z)
    (E : gset svgEdge) : Prop :=
  ∀ x, finished st x → settled adj E x.

(** ** [getLongestChain] *)

(** No node lies on a directed cycle. *)
Definition acyclic (graph : Graph) : Prop := ∀ x, ¬ tc (edge graph) x x.

(** [c] is a chain of successors starting at [x] that no such chain
    exceeds in length. *)
Definition isLongest (graph : Graph) (x : string) (c : Chain) : Prop :=
  head c = Some x ∧ chained graph c ∧
  ∀ p, head p = Some x → chained graph p → (length p ≤ length c)%nat.

(** Every entry of the memo table is a longest chain of its key. *)
Definition memoOk (graph : Graph) (memo : gmap string Chain) : Prop :=
  ∀ x c, memo !! x = Some c → isLongest graph x c.

(** ** The search of [runWhy] *)

(** What the loop over the main modules knows of its budget when it reaches
    a main module; [N] is [whyMaxPaths]. *)
Definition searchPre (N : Z) (allPaths : list (list string)) (searchMax : Z)
    : Prop :=
  (0 < N → 0 < searchMax ≤ N ∧ len allPaths < searchMax) ∧
  (N ≤ 0 → searchMax = N).

(** Every entry of the memo table is a chain of successors of its key
    without a repeated node, all of whose nodes have entries themselves. *)
Definition memoSimple (graph : Graph) (memo : gmap string Chain) : Prop :=
  ∀ x c, memo !! x = Some c →
         head c = Some x ∧ chained graph c ∧ NoDup c ∧
         ∀ y, y ∈ c → is_Some (memo !! y).

(** What a call of [getLongestChain] does to the memo table: entries are
    kept, and no ancestor that has successors gets an entry. *)
Definition memoFrame (graph : Graph) (chain : Chain)
    (memo memo' : gmap string Chain) : Prop :=
  memo ⊆ memo' ∧
  ∀ x, x ∈ chain → succs graph x ≠ [] → memo' !! x = memo !! x.

(** Every successor of [x] either has the edge from [x] recorded or leads
    back to [x] along recorded edges, so that the edge would close a
    cycle. *)
Definition closed (adj : Graph) (E : gset svgEdge) (x : string) : Prop :=
  ∀ n, n ∈ succs adj x → edgeRel E x n ∨ rtc (edgeRel E) n x.

(** Every finished node is closed. *)
Definition finishedClosed (adj : Graph) (st : gmap string Z)
    (E : gset svgEdge) : Prop :=
  ∀ x, finished st x → closed adj E x.

(** Recorded edges lead from every active node to [cur]. *)
Definition activeReach (st : gmap string Z) (E : gset svgEdge)
    (cur : string) : Prop :=
  ∀ a, stateGet st a = visitActive → rtc (edgeRel E) a cur.

(** * Properties *)

(** ** The tests of the repository and the scenarios of the specification *)

(** [TestFindAllPathsHonorsLimit], scenario 4. *)
Example test_findAllPaths_honors_limit :
  snd <$> findAllPaths 0 "D" diamond (allOf ["A"; "B"; "C"; "D"]) 1 4
                       "A" [] ∅ []
  = Some [["A"; "B"; "D"]].
Proof. by vm_compute. Qed.

(** [TestFindAllPathsMaxDepth], scenario 3. *)
Example test_findAllPaths_max_depth :
  snd <$> findAllPaths 3 "E" chain5 (allOf ["A"; "B"; "C"; "D"; "E"]) 0 5
                       "A" [] ∅ [] = Some [] ∧
  snd <$> findAllPaths 5 "E" chain5 (allOf ["A"; "B"; "C"; "D"; "E"]) 0 5
                       "A" [] ∅ [] = Some [["A"; "B"; "C"; "D"; "E"]].
Proof. split; by vm_compute. Qed.

(** [TestComputePathSubgraphDiamond], scenario 1. *)
Example test_subgraph_diamond :
  computeReachableToTarget 4 "D" (map_to_list diamond)
  = Some (allOf ["A"; "B"; "C"; "D"]) ∧
  computePathSubgraph 6 ["A"] diamond (allOf ["A"; "B"; "C"; "D"])
  = Some (allOf ["A"; "B"; "C"; "D"],
          {[ mkEdge "A" "B"; mkEdge "A" "C"; mkEdge "B" "D";
             mkEdge "C" "D" ]}).
Proof. split; by vm_compute. Qed.

(** [TestComputePathSubgraphPrunesUnreachable], scenario 2. *)
Example test_subgraph_prunes_unreachable :
  computeReachableToTarget 4 "D" (map_to_list deadEnd)
  = Some (allOf ["A"; "B"; "D"]) ∧
  computePathSubgraph 5 ["A"] deadEnd (allOf ["A"; "B"; "D"])
  = Some (allOf ["A"; "B"; "D"], {[ mkEdge "A" "B"; mkEdge "B" "D" ]}).
Proof. split; by vm_compute. Qed.

(** Scenario 5: the edge that closes the cycle is left out. *)
Example test_subgraph_cycle :
  computeReachableToTarget 4 "D" (map_to_list triangle)
  = Some (allOf ["A"; "B"; "C"; "D"]) ∧
  computePathSubgraph 6 ["A"] triangle (allOf ["A"; "B"; "C"; "D"])
  = Some (allOf ["A"; "B"; "C"; "D"],
          {[ mkEdge "A" "B"; mkEdge "B" "C"; mkEdge "C" "D" ]}).
Proof. split; by vm_compute. Qed.

(** ** Reading the maps *)

Lemma mapGet_insert (m : BoolMap) k b x :
  mapGet (<[k := b]> m) x = if decide (k = x) then b else mapGet m x.
Proof.
  unfold mapGet. rewrite lookup_insert. by destruct (decide (k = x)).
Qed.

Lemma mapGet_empty x : mapGet ∅ x = false.
Proof. unfold mapGet. by rewrite lookup_empty. Qed.

Lemma stateGet_insert (m : gmap string Z) k z x :
  stateGet (<[k := z]> m) x = if decide (k = x) then z else stateGet m x.
Proof.
  unfold stateGet. rewrite lookup_insert. by destruct (decide (k = x)).
Qed.

Lemma succs_insert (g : Graph) k l x :
  succs (<[k := l]> g) x = if decide (k = x) then l else succs g x.
Proof.
  unfold succs. rewrite lookup_insert. by destruct (decide (k = x)).
Qed.

Lemma succs_nonempty_dom (g : Graph) k x : x ∈ succs g k → k ∈ dom g.
Proof.
  unfold succs. intros Hx. apply elem_of_dom.
  destruct (g !! k); [eauto | by apply not_elem_of_nil in Hx].
Qed.

(** ** Chains of edges *)

Lemma chained_cons g x p :
  chained g (x :: p) ↔ (∀ y, head p = Some y → edge g x y) ∧ chained g p.
Proof.
  destruct p as [|y p]; simpl.
  - split; [intros _; split; [intros ? [=] | done] | done].
  - split.
    + intros [He Hc]. split; [by intros ? [= <-] | done].
    + intros [He Hc]. split; [by apply He | done].
Qed.

Lemma chained_app g p x q :
  chained g (p ++ x :: q) ↔ chained g (p ++ [x]) ∧ chained g (x :: q).
Proof.
  induction p as [|a p IH].
  - simpl. tauto.
  - rewrite <- !app_comm_cons, (chained_cons g a (p ++ x :: q)),
      (chained_cons g a (p ++ [x])), IH.
    assert (head (p ++ x :: q) = head (p ++ [x])) as -> by by destruct p.
    tauto.
Qed.

Lemma chained_snoc g p x y :
  chained g (p ++ [x]) → edge g x y → chained g ((p ++ [x]) ++ [y]).
Proof.
  intros Hp He. rewrite <- app_assoc. simpl. apply chained_app.
  split; [done | by simpl].
Qed.

(** A chain of edges witnesses reachability of its last node from its
    first. *)
Lemma chained_rtc g p x y :
  chained g p → head p = Some x → last p = Some y → rtc (edge g) x y.
Proof.
  revert x. induction p as [|a p IH]; intros x Hc Hh Hl; [done|].
  injection Hh as ->. destruct p as [|b p].
  - injection Hl as ->. done.
  - destruct Hc as [He Hc]. eapply rtc_l; [exact He|].
    apply IH; [done | done | done].
Qed.

(** ** [findAllPaths]: what is appended to [out] *)

Section FindAllPathsSound.
Context (D : Z) (target : string) (graph : Graph) (reachable : BoolMap)
        (N : Z).
(** The node the outermost call starts from. *)
Context (origin : string).

Local Abbreviation fap := (findAllPaths D target graph reachable N).
Local Abbreviation loop := (pathsLoop reachable N).
Local Abbreviation pathOk := (pathOk D target graph reachable origin).
Local Abbreviation emitted := (emitted D target graph reachable origin).
Local Abbreviation fapPost := (fapPost D target graph reachable N origin).

Lemma budgetSpent_false o :
  budgetSpent N o = false → 0 < N → len o < N.
Proof. unfold budgetSpent. lia. Qed.

Lemma fapPost_refl v o : fapPost v o v o.
Proof.
  split; [done|]. split; [|lia].
  exists []. by rewrite app_nil_r.
Qed.

Lemma fapPost_trans v o v1 o1 v2 o2 :
  fapPost v o v1 o1 → budgetSpent N o1 = false → fapPost v1 o1 v2 o2 →
  fapPost v o v2 o2.
Proof.
  intros (Hv1 & (n1 & -> & Hn1) & Hb1) Hspent (Hv2 & (n2 & -> & Hn2) & Hb2).
  split; [intros x; by rewrite Hv2|]. split.
  - exists (n1 ++ n2). rewrite app_assoc. split; [done|].
    by apply Forall_app.
  - intros HN _. apply Hb2; [done|]. by apply budgetSpent_false.
Qed.

Lemma pathsLoop_sound rec (cp : list string) nexts :
  (∀ n v o v' o',
      n ∈ nexts → mapGet reachable n = true →
      (∀ x, x ∈ cp → mapGet v x = true) →
      rec n v o = Some (v', o') → fapPost v o v' o') →
  ∀ v o v' o',
    (∀ x, x ∈ cp → mapGet v x = true) →
    loop rec nexts v o = Some (v', o') → fapPost v o v' o'.
Proof.
  induction nexts as [|n nexts IH]; intros Hrec v o v' o' Hv Hrun.
  - injection Hrun as <- <-. apply fapPost_refl.
  - simpl in Hrun.
    assert (∀ v o v' o', (∀ x, x ∈ cp → mapGet v x = true) →
              loop rec nexts v o = Some (v', o') → fapPost v o v' o')
      as IH'.
    { apply IH. intros m ?????. apply Hrec. by right. }
    destruct (mapGet reachable n) eqn:Hn; simpl in Hrun; [|by apply IH'].
    destruct (rec n v o) as [[v1 o1]|] eqn:Hcall; [|done].
    assert (fapPost v o v1 o1) as Hpost1.
    { eapply Hrec; [by left | done | done | done]. }
    destruct (budgetSpent N o1) eqn:Hspent.
    + by injection Hrun as <- <-.
    + eapply fapPost_trans; [exact Hpost1 | done |].
      apply IH'; [|done].
      intros x Hx. destruct Hpost1 as [-> _]. by apply Hv.
Qed.

Lemma findAllPaths_sound fuel :
  ∀ s cp v o v' o',
    pathOk cp s → (∀ x, x ∈ cp → mapGet v x = true) →
    fap fuel s cp v o = Some (v', o') → fapPost v o v' o'.
Proof.
  induction fuel as [|fuel IH]; intros s cp v o v' o' Hok Hv Hrun; [done|].
  simpl in Hrun. case_bool_decide as Hst.
  { injection Hrun as <- <-. subst s. split; [done|]. split.
    - exists [cp ++ [target]]. split; [done|].
      apply Forall_singleton. by exists cp.
    - unfold len. rewrite length_app. simpl. lia. }
  destruct (budgetSpent N o) eqn:Hspent;
    [injection Hrun as <- <-; apply fapPost_refl|].
  destruct (mapGet reachable s) eqn:Hs; simpl in Hrun;
    [|injection Hrun as <- <-; apply fapPost_refl].
  destruct (tooDeep D cp) eqn:Hdeep;
    [injection Hrun as <- <-; apply fapPost_refl|].
  destruct (mapGet v s) eqn:Hvs;
    [injection Hrun as <- <-; apply fapPost_refl|].
  destruct (loop _ _ _ _) as [[v1 o1]|] eqn:Hloop; [|done].
  injection Hrun as <- <-.
  destruct Hok as (Hnd & Ht & Hr & Hd & Hc & Hh).
  assert (s ∉ cp) as Hscp.
  { intros Hin. apply Hv in Hin. congruence. }
  assert (fapPost (<[s:=true]> v) o v1 o1) as (Hv1 & Hnew & Hb).
  { eapply (pathsLoop_sound _ (cp ++ [s])); [| |exact Hloop].
    - intros n w p w' p' Hn Hrn Hw Hcall.
      eapply IH; [|exact Hw|exact Hcall].
      split; [|split; [|split; [|split; [|split]]]].
      + apply NoDup_app. split; [done|]. split; [|apply NoDup_singleton].
        intros x Hx ->%list_elem_of_singleton. done.
      + rewrite elem_of_app, list_elem_of_singleton. intros [?|?]; [done|by subst].
      + intros x [Hx| ->%list_elem_of_singleton]%elem_of_app; auto.
      + intros HD. unfold tooDeep in Hdeep. unfold len in *.
        rewrite length_app. simpl. lia.
      + by apply chained_snoc.
      + rewrite <- app_assoc. simpl. rewrite <- Hh. by destruct cp.
    - intros x [Hx| ->%list_elem_of_singleton]%elem_of_app;
        rewrite mapGet_insert; case_decide; auto. }
  split; [|done].
  intros x. rewrite mapGet_insert. case_decide as Hx; [by subst x|].
  rewrite Hv1, mapGet_insert. by case_decide.
Qed.

(** The shape of an emitted path, spelled out. *)
Lemma emitted_spec p :
  emitted p →
  head p = Some origin ∧ last p = Some target ∧ NoDup p ∧ chained graph p ∧
  (0 < D → len p ≤ D + 1) ∧
  (∀ x, x ∈ p → x = target ∨ mapGet reachable x = true).
Proof.
  intros (cp & -> & Hnd & Ht & Hr & Hd & Hc & Hh).
  split; [done|]. split; [by rewrite last_snoc|]. split.
  { apply NoDup_app. split; [done|]. split; [|apply NoDup_singleton].
    by intros x Hx ->%list_elem_of_singleton. }
  split; [done|]. split.
  { intros HD. unfold len in *. rewrite length_app. simpl. lia. }
  intros x [Hx| ->%list_elem_of_singleton]%elem_of_app; auto.
Qed.
End FindAllPathsSound.

(** ** [findAllPaths]: the state around a call, completeness, termination *)

Section FindAllPathsComplete.
Context (D : Z) (target : string) (graph : Graph) (reachable : BoolMap)
        (N : Z).

Local Abbreviation fap := (findAllPaths D target graph reachable N).
Local Abbreviation loop := (pathsLoop reachable N).
Local Abbreviation openRoute := (openRoute D target graph reachable).

Lemma fapFrame_refl v o : fapFrame v o v o.
Proof. split; [done|]. exists []. by rewrite app_nil_r. Qed.

Lemma fapFrame_trans v o v1 o1 v2 o2 :
  fapFrame v o v1 o1 → fapFrame v1 o1 v2 o2 → fapFrame v o v2 o2.
Proof.
  intros [Hv1 [n1 ->]] [Hv2 [n2 ->]]. split; [intros x; by rewrite Hv2|].
  exists (n1 ++ n2). by rewrite app_assoc.
Qed.

Lemma pathsLoop_frame rec nexts :
  (∀ n v o v' o', n ∈ nexts → rec n v o = Some (v', o') →
                  fapFrame v o v' o') →
  ∀ v o v' o', loop rec nexts v o = Some (v', o') → fapFrame v o v' o'.
Proof.
  induction nexts as [|n nexts IH]; intros Hrec v o v' o' Hrun.
  - injection Hrun as <- <-. apply fapFrame_refl.
  - simpl in Hrun.
    assert (∀ v o v' o', loop rec nexts v o = Some (v', o') →
                         fapFrame v o v' o') as IH'.
    { apply IH. intros m ?????. apply Hrec. by right. }
    destruct (mapGet reachable n); simpl in Hrun; [|by apply IH'].
    destruct (rec n v o) as [[v1 o1]|] eqn:Hcall; [|done].
    assert (fapFrame v o v1 o1) as H1 by (eapply Hrec; [by left|done]).
    destruct (budgetSpent N o1).
    + by injection Hrun as <- <-.
    + eapply fapFrame_trans; [exact H1|by apply IH'].
Qed.

Lemma findAllPaths_frame fuel :
  ∀ s cp v o v' o',
    fap fuel s cp v o = Some (v', o') → fapFrame v o v' o'.
Proof.
  induction fuel as [|fuel IH]; intros s cp v o v' o' Hrun; [done|].
  simpl in Hrun. case_bool_decide.
  { injection Hrun as <- <-. split; [done|]. by eexists. }
  destruct (budgetSpent N o);
    [injection Hrun as <- <-; apply fapFrame_refl|].
  destruct (mapGet reachable s); simpl in Hrun;
    [|injection Hrun as <- <-; apply fapFrame_refl].
  destruct (tooDeep D cp);
    [injection Hrun as <- <-; apply fapFrame_refl|].
  destruct (mapGet v s) eqn:Hvs;
    [injection Hrun as <- <-; apply fapFrame_refl|].
  destruct (loop _ _ _ _) as [[v1 o1]|] eqn:Hloop; [|done].
  injection Hrun as <- <-.
  apply pathsLoop_frame in Hloop as [Hv1 Hnew];
    [|intros n w p w' p' _ Hcall; exact (IH _ _ _ _ _ _ Hcall)].
  split; [|done].
  intros x. rewrite mapGet_insert. case_decide as Hx; [by subst x|].
  rewrite Hv1, mapGet_insert. by case_decide.
Qed.

Lemma openRoute_frame cp n w v v' :
  (∀ x, mapGet v' x = mapGet v x) → openRoute cp n w v → openRoute cp n w v'.
Proof.
  intros Hv (?&?&?&?&?&Hw&?). repeat split; try done.
  intros x Hx. rewrite Hv. by apply Hw.
Qed.

Lemma pathsLoop_complete rec (cp : list string) nexts :
  N ≤ 0 →
  (∀ n v o v' o', n ∈ nexts → rec n v o = Some (v', o') →
                  fapFrame v o v' o') →
  (∀ n v o v' o' w, n ∈ nexts → rec n v o = Some (v', o') →
                    openRoute cp n w v → cp ++ w ∈ o') →
  ∀ v o v' o',
    loop rec nexts v o = Some (v', o') →
    ∀ n w, n ∈ nexts → openRoute cp n w v → cp ++ w ∈ o'.
Proof.
  intros HN.
  induction nexts as [|m nexts IH]; intros Hfr Hrec v o v' o' Hrun n w Hn Hw.
  { by apply not_elem_of_nil in Hn. }
  simpl in Hrun.
  assert (∀ v o v' o', loop rec nexts v o = Some (v', o') →
                       fapFrame v o v' o') as Hrest.
  { apply pathsLoop_frame. intros ??????. apply Hfr. by right. }
  assert (∀ v o v' o', loop rec nexts v o = Some (v', o') →
            ∀ n w, n ∈ nexts → openRoute cp n w v → cp ++ w ∈ o') as IH'.
  { apply IH.
    - intros ??????. apply Hfr. by right.
    - intros ???????. apply Hrec. by right. }
  destruct (mapGet reachable m) eqn:Hm; simpl in Hrun.
  - destruct (rec m v o) as [[v1 o1]|] eqn:Hcall; [|done].
    assert (budgetSpent N o1 = false) as Hb by (unfold budgetSpent; lia).
    rewrite Hb in Hrun.
    assert (fapFrame v o v1 o1) as [Hv1 _] by (eapply Hfr; [by left|done]).
    destruct (decide (n = m)) as [->|Hne].
    + apply Hrest in Hrun as [_ [new ->]]. apply elem_of_app. left.
      eapply Hrec; [by left|done|done].
    + apply elem_of_cons in Hn as [?|Hn]; [done|].
      eapply IH'; [done|done|]. by eapply openRoute_frame.
  - apply elem_of_cons in Hn as [->|Hn]; [|by eapply IH'].
    destruct Hw as (Hh&_&_&_&Hr&_). rewrite Hr in Hm; [done|].
    destruct w; [done|]. injection Hh as ->. by left.
Qed.

Lemma route_at_target (w : list string) :
  head w = Some target → last w = Some target → NoDup w → w = [target].
Proof.
  destruct w as [|a w]; [done|]. intros [= ->] Hl Hnd.
  destruct w as [|b w]; [done|]. exfalso.
  apply NoDup_cons in Hnd as [Hnot _]. apply Hnot.
  change (last (target :: b :: w)) with (last (b :: w)) in Hl.
  by apply last_Some_elem_of.
Qed.

Lemma findAllPaths_complete fuel :
  N ≤ 0 →
  ∀ s cp v o v' o' w,
    fap fuel s cp v o = Some (v', o') → openRoute cp s w v → cp ++ w ∈ o'.
Proof.
  intros HN.
  induction fuel as [|fuel IH]; intros s cp v o v' o' w Hrun Hw; [done|].
  simpl in Hrun. case_bool_decide as Hst.
  { injection Hrun as <- <-. subst s.
    destruct Hw as (Hh&Hl&Hnd&_). rewrite (route_at_target w); [|done..].
    apply elem_of_app. right. by left. }
  destruct Hw as (Hh&Hl&Hnd&Hc&Hr&Hv&Hd).
  destruct w as [|a w]; [done|]. injection Hh as ->.
  destruct w as [|n w]; [by injection Hl as ->|].
  assert (budgetSpent N o = false) as Hb by (unfold budgetSpent; lia).
  rewrite Hb, Hr in Hrun by by left. simpl in Hrun.
  assert (tooDeep D cp = false) as Hdeep.
  { unfold tooDeep. destruct (0 <? D) eqn:HD; [|done]. simpl.
    apply Z.ltb_lt in HD. specialize (Hd HD). unfold len in *. simpl in Hd.
    lia. }
  rewrite Hdeep, Hv in Hrun by by left.
  destruct (loop _ _ _ _) as [[v1 o1]|] eqn:Hloop; [|done].
  injection Hrun as <- <-.
  destruct Hc as [He Hc]. apply NoDup_cons in Hnd as [Hs Hnd].
  replace (cp ++ s :: n :: w) with ((cp ++ [s]) ++ n :: w)
    by by rewrite <- app_assoc.
  eapply (pathsLoop_complete _ (cp ++ [s])); [done| | |exact Hloop|exact He|].
  - intros ?????? Hcall. exact (findAllPaths_frame _ _ _ _ _ _ _ Hcall).
  - intros ??????? Hcall Hroute. exact (IH _ _ _ _ _ _ _ Hcall Hroute).
  - split; [done|]. split; [done|]. split; [done|]. split; [done|].
    split; [intros x Hx; apply Hr; by right|]. split.
    + intros x Hx. rewrite mapGet_insert. case_decide; [by subst x|].
      apply Hv. by right.
    + intros HD. specialize (Hd HD). unfold len in *.
      rewrite length_app. simpl in *. lia.
Qed.

(** Enough fuel: one unit for each key of the graph that is not yet on
    the current path, and one more. *)
Lemma pathsLoop_total rec (P : BoolMap → Prop) nexts :
  (∀ v v', (∀ x, mapGet v' x = mapGet v x) → P v → P v') →
  (∀ n v o, n ∈ nexts → P v → is_Some (rec n v o)) →
  (∀ n v o v' o', rec n v o = Some (v', o') → fapFrame v o v' o') →
  ∀ v o, P v → is_Some (loop rec nexts v o).
Proof.
  intros HP.
  induction nexts as [|m nexts IH]; intros Hrec Hfr v o Hv; [by eexists|].
  simpl.
  assert (∀ v o, P v → is_Some (loop rec nexts v o)) as IH'.
  { apply IH; [|done]. intros ?????. apply Hrec; [by right|done]. }
  destruct (mapGet reachable m); simpl; [|by apply IH'].
  destruct (Hrec m v o) as [[v1 o1] Hcall]; [by left|done|].
  rewrite Hcall. destruct (budgetSpent N o1); [by eexists|].
  apply IH'. eapply HP; [|exact Hv]. by apply Hfr in Hcall as [? _].
Qed.

Lemma findAllPaths_total fuel :
  ∀ (U : gset string) s cp v o,
    (size U < fuel)%nat →
    (∀ k, k ∈ dom graph → mapGet v k = false → k ∈ U) →
    is_Some (fap fuel s cp v o).
Proof.
  induction fuel as [|fuel IH]; intros U s cp v o Hsize HU; [lia|].
  simpl. case_bool_decide; [by eexists|].
  destruct (budgetSpent N o); [by eexists|].
  destruct (mapGet reachable s); simpl; [|by eexists].
  destruct (tooDeep D cp); [by eexists|].
  destruct (mapGet v s) eqn:Hvs; [by eexists|].
  set (P := λ w : BoolMap,
         s ∈ dom graph → ∀ k, k ∈ dom graph → mapGet w k = false →
                              k ∈ U ∖ {[s]}).
  destruct (pathsLoop_total
              (λ next w p, fap fuel next (cp ++ [s]) w p) P
              (succs graph s)) with (v := <[s:=true]> v) (o := o)
    as [[v1 o1] ->]; [| | | |by eexists].
  - intros w w' Hw Hp Hs k Hk Hwk. apply Hp; [done|done|]. by rewrite <- Hw.
  - intros n w p Hn Hp. apply succs_nonempty_dom in Hn.
    apply (IH (U ∖ {[s]})); [|by apply Hp].
    assert (s ∈ U) by by apply HU.
    assert (size U = size (U ∖ {[s]}) + 1)%nat; [|lia].
    rewrite (union_difference_L {[s]} U) at 1 by by apply singleton_subseteq_l.
    rewrite size_union by apply disjoint_difference_r1, reflexivity.
    rewrite size_singleton. lia.
  - intros ????? Hcall. exact (findAllPaths_frame _ _ _ _ _ _ _ Hcall).
  - intros Hs k Hk. rewrite mapGet_insert. case_decide; [done|].
    intros Hvk. apply elem_of_difference. split; [by apply HU|].
    by apply not_elem_of_singleton.
Qed.
End FindAllPathsComplete.

(** ** [getLongestChain]: termination *)

Section LongestChainTotal.
Context (graph : Graph).

Lemma chainLoop_total rec deps :
  (∀ d memo, d ∈ deps → is_Some (rec d memo)) →
  ∀ best memo, is_Some (chainLoop rec deps best memo).
Proof.
  induction deps as [|d deps IH]; intros Hrec best memo; [by eexists|].
  simpl. destruct (Hrec d memo) as [[c memo'] ->]; [by left|].
  destruct (len best <? len c); apply IH; intros ???; apply Hrec; by right.
Qed.

(** Enough fuel: one unit for each key of the graph that is not among the
    ancestors in [currentChain], and one more. *)
Lemma getLongestChain_total fuel :
  ∀ (U : gset string) cur chain memo,
    (size U < fuel)%nat →
    (∀ k, k ∈ dom graph → k ∉ chain → k ∈ U) →
    is_Some (getLongestChain graph fuel cur chain memo).
Proof.
  induction fuel as [|fuel IH]; intros U cur chain memo Hsize HU; [lia|].
  simpl. destruct (memo !! cur); [by eexists|].
  destruct (len (succs graph cur) =? 0) eqn:Hdeps; [by eexists|].
  unfold contains. case_bool_decide as Hin; [by eexists|].
  assert (cur ∈ dom graph) as Hdom.
  { destruct (succs graph cur) as [|d ds] eqn:Hs; [done|].
    apply (succs_nonempty_dom graph cur d). rewrite Hs. by left. }
  assert (cur ∈ U) as HcU by by apply HU.
  destruct (chainLoop_total
              (λ dep m, getLongestChain graph fuel dep (chain ++ [cur]) m)
              (succs graph cur)) with (best := @nil string) (memo := memo)
    as [[c memo'] ->]; [|by eexists].
  intros d m _. apply (IH (U ∖ {[cur]})).
  - assert (size U = size (U ∖ {[cur]}) + 1)%nat; [|lia].
    rewrite (union_difference_L {[cur]} U) at 1
      by by apply singleton_subseteq_l.
    rewrite size_union by apply disjoint_difference_r1, reflexivity.
    rewrite size_singleton. lia.
  - intros k Hk Hnot. apply elem_of_difference. split.
    + apply HU; [done|]. intros Hc. apply Hnot, elem_of_app. by left.
    + intros ->%elem_of_singleton. apply Hnot, elem_of_app. right. by left.
Qed.
End LongestChainTotal.

(** ** [findAllPaths]: the outermost call *)

(** [findAllPaths(start, target, graph, reachable, []string{},
    map[string]bool{}, &out, maxPaths)] with [out] empty returns, whatever
    the fuel above the number of keys of the graph, and meets [fapPost]. *)
Lemma findAllPaths_top D target graph reachable N start (k : nat) :
  ∃ v out,
    findAllPaths D target graph reachable N (S (size graph) + k) start [] ∅ []
      = Some (v, out) ∧
    fapPost D target graph reachable N start ∅ [] v out.
Proof.
  destruct (findAllPaths_total D target graph reachable N
              (S (size graph) + k) (dom graph) start [] ∅ [])
    as [[v out] Hrun]; [rewrite size_dom; lia|done|].
  exists v, out. split; [done|].
  eapply findAllPaths_sound; [| |exact Hrun].
  - split; [apply NoDup_nil_2|]. split; [apply not_elem_of_nil|].
    split; [by intros x ?%not_elem_of_nil|]. split; [unfold len; simpl; lia|].
    done.
  - by intros x ?%not_elem_of_nil.
Qed.

Lemma findAllPaths_top_emitted D target graph reachable N start (k : nat) :
  ∃ v out,
    findAllPaths D target graph reachable N (S (size graph) + k) start [] ∅ []
      = Some (v, out) ∧
    (0 < N → len out ≤ N) ∧
    ∀ p, p ∈ out → emitted D target graph reachable start p.
Proof.
  destruct (findAllPaths_top D target graph reachable N start k)
    as (v & out & Hrun & _ & (new & -> & Hnew) & Hb).
  exists v, new. split; [done|]. split.
  - intros HN. apply Hb; [done|]. unfold len. simpl. lia.
  - intros p Hp. by eapply Forall_forall in Hnew.
Qed.

(** C2. Every path that [findAllPaths], called with an empty current path,
    an empty visited map and an empty output, leaves in the output starts at
    [start], ends at [target], repeats no node, and follows an edge of the
    graph at every step; the call returns for every fuel above the number of
    keys of the graph. *)
Theorem findAllPaths_paths_are_simple_routes
    D target graph reachable N start (k : nat) :
  ∃ v out,
    findAllPaths D target graph reachable N (S (size graph) + k) start [] ∅ []
      = Some (v, out) ∧
    ∀ p, p ∈ out →
      head p = Some start ∧ last p = Some target ∧ NoDup p ∧ chained graph p.
Proof.
  destruct (findAllPaths_top_emitted D target graph reachable N start k)
    as (v & out & Hrun & _ & Hem).
  exists v, out. split; [done|]. intros p Hp.
  destruct (emitted_spec _ _ _ _ _ _ (Hem p Hp)) as (?&?&?&?&_). done.
Qed.

(** The budget, for any map whatever. With [maxPaths = N > 0] at most [N]
    paths are left in the output. With [maxPaths <= 0] every simple
    start-to-target path all of whose nodes the map marks, and which has at
    most [whyMaxDepth] edges when that limit is positive, is produced. *)
Lemma findAllPaths_budget_marked D target graph reachable N start (k : nat) :
  ∃ v out,
    findAllPaths D target graph reachable N (S (size graph) + k) start [] ∅ []
      = Some (v, out) ∧
    (0 < N → len out ≤ N) ∧
    (N ≤ 0 →
     ∀ p, head p = Some start → last p = Some target → NoDup p →
          chained graph p → (∀ x, x ∈ p → mapGet reachable x = true) →
          (0 < D → len p ≤ D + 1) → p ∈ out).
Proof.
  destruct (findAllPaths_top_emitted D target graph reachable N start k)
    as (v & out & Hrun & Hb & _).
  exists v, out. split; [done|]. split; [done|].
  intros HN p Hh Hl Hnd Hc Hr Hd.
  change p with ([] ++ p).
  eapply findAllPaths_complete; [exact HN|exact Hrun|].
  split; [done|]. split; [done|]. split; [done|]. split; [done|].
  split; [done|]. split.
  - intros x _. apply mapGet_empty.
  - intros HD. specialize (Hd HD). unfold len in *. simpl. lia.
Qed.

(** The search follows the map it is handed and nothing else: with the
    single edge A -> B, a map that marks no node and no budget, the simple
    path [A; B] exists and nothing is produced. *)
Lemma findAllPaths_unlimited_needs_marks :
  let graph : Graph := {[ "A" := ["B"] ]} in
  let p := ["A"; "B"] in
  (head p = Some "A" ∧ last p = Some "B" ∧ NoDup p ∧ chained graph p) ∧
  ∀ k : nat, ∃ v out,
    findAllPaths 0 "B" graph ∅ 0 (S (size graph) + k) "A" [] ∅ []
      = Some (v, out) ∧ p ∉ out.
Proof.
  simpl. split.
  - split; [done|]. split; [done|]. split.
    + apply (bool_decide_unpack _). by vm_compute.
    + apply (bool_decide_unpack _). by vm_compute.
  - intros k. exists ∅, []. split; [|apply not_elem_of_nil].
    rewrite map_size_singleton. reflexivity.
Qed.

(** C6. With [whyMaxDepth = D > 0] every path produced has at most [D]
    edges, that is at most [D + 1] nodes. *)
Theorem findAllPaths_depth_limit D target graph reachable N start (k : nat) :
  0 < D →
  ∃ v out,
    findAllPaths D target graph reachable N (S (size graph) + k) start [] ∅ []
      = Some (v, out) ∧
    ∀ p, p ∈ out → len p ≤ D + 1.
Proof.
  intros HD.
  destruct (findAllPaths_top_emitted D target graph reachable N start k)
    as (v & out & Hrun & _ & Hem).
  exists v, out. split; [done|]. intros p Hp.
  destruct (emitted_spec _ _ _ _ _ _ (Hem p Hp)) as (_&_&_&_&Hd&_). auto.
Qed.

Lemma findAllPaths_depth_limit_witness :
  0 < 2 ∧
  ∃ v out,
    findAllPaths 2 "D" diamond (allOf ["A"; "B"; "C"; "D"]) 0
                 (S (size diamond) + 0) "A" [] ∅ [] = Some (v, out) ∧
    ∀ p, p ∈ out → len p ≤ 2 + 1.
Proof.
  split; [lia|].
  apply (findAllPaths_depth_limit 2 "D" diamond (allOf ["A"; "B"; "C"; "D"])
           0 "A" 0%nat).
  lia.
Defined.

(** C8. When the reachability map contains the target, every node of every
    path produced is a member of the reachability map. *)
Theorem findAllPaths_within_reachable
    D target graph reachable N start (k : nat) :
  mapGet reachable target = true →
  ∃ v out,
    findAllPaths D target graph reachable N (S (size graph) + k) start [] ∅ []
      = Some (v, out) ∧
    ∀ p, p ∈ out → ∀ x, x ∈ p → mapGet reachable x = true.
Proof.
  intros Ht.
  destruct (findAllPaths_top_emitted D target graph reachable N start k)
    as (v & out & Hrun & _ & Hem).
  exists v, out. split; [done|]. intros p Hp x Hx.
  destruct (emitted_spec _ _ _ _ _ _ (Hem p Hp)) as (_&_&_&_&_&Hr).
  destruct (Hr x Hx) as [->|?]; done.
Qed.

Lemma findAllPaths_within_reachable_witness :
  mapGet (allOf ["A"; "B"; "C"; "D"]) "D" = true ∧
  ∃ v out,
    findAllPaths 0 "D" diamond (allOf ["A"; "B"; "C"; "D"]) 0
                 (S (size diamond) + 0) "A" [] ∅ [] = Some (v, out) ∧
    ∀ p, p ∈ out → ∀ x, x ∈ p → mapGet (allOf ["A"; "B"; "C"; "D"]) x = true.
Proof.
  split; [reflexivity|].
  apply (findAllPaths_within_reachable 0 "D" diamond
           (allOf ["A"; "B"; "C"; "D"]) 0 "A" 0%nat).
  reflexivity.
Defined.

(** C10, as the code has it. A call whose start node is the target appends
    exactly one path, the current path followed by the target, whatever the
    budget, the depth limit, the reachability map and the visited map; this
    is the single-node path [[target]] when the current path is empty. *)
Theorem findAllPaths_at_target
    D target graph reachable N (fuel : nat) cp v out :
  findAllPaths D target graph reachable N (S fuel) target cp v out
    = Some (v, out ++ [cp ++ [target]]) ∧
  findAllPaths D target graph reachable N (S fuel) target [] v out
    = Some (v, out ++ [[target]]).
Proof. simpl. by rewrite bool_decide_eq_true_2. Qed.

(** C10, as stated, fails below the outermost call: one hop down from A,
    with the depth limit of one hop reached, the call on the target B
    appends [A; B] and not the single-node path [B]. *)
Lemma findAllPaths_at_target_not_single_node :
  findAllPaths 1 "B" {[ "A" := ["B"] ]} ∅ 0 1 "B" ["A"] {[ "A" := true ]} []
    = Some ({[ "A" := true ]}, [["A"; "B"]]) ∧
  [["A"; "B"]] ≠ [] ++ [["B"]].
Proof. split; [reflexivity|done]. Qed.

(** ** Termination of the two recursive searches *)

Lemma no_route_without_target_edge (graph : Graph) start target :
  start ≠ target → graph = ∅ ∨ ¬ occurs graph target →
  ¬ rtc (edge graph) start target.
Proof.
  intros Hne Hg Hrtc. apply rtc_inv_r in Hrtc as [?|(y & _ & He)]; [done|].
  destruct Hg as [->|Hocc].
  - unfold edge, succs in He. rewrite lookup_empty in He.
    by apply not_elem_of_nil in He.
  - apply Hocc. right. by exists y.
Qed.

(** C9, as the code has it. On every graph, cyclic or not, [findAllPaths]
    and [getLongestChain] return for every fuel above the number of keys of
    the graph, whatever the rest of their arguments. [findAllPaths] leaves
    the output empty when there is no directed path of zero or more edges
    from [start] to [target], in particular when [start] differs from a
    target that is absent or when the graph is empty; [getLongestChain]
    answers a node without successors, in particular any node of the empty
    graph, with the one-node chain [[node]]. *)
Theorem searches_terminate
    D target (graph : Graph) reachable N start node (k : nat) :
  (∀ cp v o,
     is_Some (findAllPaths D target graph reachable N (S (size graph) + k)
                           start cp v o)) ∧
  (∃ v out,
     findAllPaths D target graph reachable N (S (size graph) + k) start [] ∅ []
       = Some (v, out) ∧
     (¬ rtc (edge graph) start target → out = []) ∧
     (start ≠ target → graph = ∅ ∨ ¬ occurs graph target → out = [])) ∧
  (∀ chain memo,
     is_Some (getLongestChain graph (S (size graph) + k) node chain memo)) ∧
  (succs graph node = [] →
   ∃ memo, getLongestChain graph (S (size graph) + k) node [] ∅
           = Some ([node], memo)).
Proof.
  split; [|split; [|split]].
  - intros cp v o. apply (findAllPaths_total _ _ _ _ _ _ (dom graph));
      [rewrite size_dom; lia|done].
  - destruct (findAllPaths_top_emitted D target graph reachable N start k)
      as (v & out & Hrun & _ & Hem).
    exists v, out. split; [done|].
    assert (¬ rtc (edge graph) start target → out = []) as Hnone.
    { intros Hno. destruct out as [|p out]; [done|]. exfalso. apply Hno.
      destruct (emitted_spec _ _ _ _ _ _ (Hem p ltac:(by left)))
        as (Hh&Hl&_&Hc&_).
      by eapply chained_rtc. }
    split; [done|]. intros Hne Hg. by apply Hnone, no_route_without_target_edge.
  - intros chain memo. apply (getLongestChain_total _ _ (dom graph));
      [rewrite size_dom; lia|done].
  - intros Hleaf. simpl. rewrite lookup_empty, Hleaf. simpl. by eexists.
Qed.

(** C9, as stated, fails for [getLongestChain]: on the empty graph the
    answer is the chain of length one, not an empty chain. *)
Lemma getLongestChain_empty_graph_not_empty :
  getLongestChain ∅ (S (size (∅ : Graph)) + 0) "A" [] ∅
    = Some (["A"], {[ "A" := ["A"] ]}) ∧
  len ["A"] ≠ 0.
Proof. split; [reflexivity|done]. Qed.

(** ** [getLongestChain] on a graph with a cycle *)

(** C3, second half, fails on the code: with A -> B, C; B -> C, D; C -> B
    the memo entry of C is computed while B is an ancestor, so it stops at
    C; it is then reused for the second successor of A, where the chain
    could continue through B. The call returns [A; B; C] although
    [A; C; B; D] is an acyclic chain of successors of four nodes. *)
Lemma getLongestChain_cycle_misses_longest :
  let graph : Graph :=
    {[ "A" := ["B"; "C"]; "B" := ["C"; "D"]; "C" := ["B"] ]} in
  let longer := ["A"; "C"; "B"; "D"] in
  (∀ k : nat,
     fst <$> getLongestChain graph (S (size graph) + k) "A" [] ∅
       = Some ["A"; "B"; "C"]) ∧
  head longer = Some "A" ∧ NoDup longer ∧ chained graph longer ∧
  len ["A"; "B"; "C"] < len longer.
Proof.
  simpl. split; [intros k; vm_compute; reflexivity|].
  split; [done|]. split; [|split; [|done]].
  - apply (bool_decide_unpack _). by vm_compute.
  - apply (bool_decide_unpack _). by vm_compute.
Qed.

(** ** Breadth-first search *)

Lemma reverseMark_gen prevs reachable queue :
  reverseMark prevs reachable queue = genMark (λ _, true) prevs reachable queue.
Proof.
  revert reachable queue. induction prevs as [|x l IH]; intros m q; [done|].
  simpl. destruct (mapGet m x); simpl; apply IH.
Qed.

Lemma reverseLoop_gen fuel reverse reachable queue :
  reverseLoop fuel reverse reachable queue
  = genLoop (succs reverse) (λ _, true) fuel reachable queue.
Proof.
  revert reachable queue. induction fuel as [|fuel IH]; intros m q.
  - by destruct q.
  - destruct q as [|cur q]; [done|]. simpl. rewrite reverseMark_gen.
    destruct (genMark _ _ _ _). apply IH.
Qed.

Lemma forwardMark_gen nexts reachable forward queue :
  forwardMark nexts reachable forward queue
  = genMark (mapGet reachable) nexts forward queue.
Proof.
  revert forward queue. induction nexts as [|x l IH]; intros m q; [done|].
  simpl. destruct (mapGet reachable x && negb (mapGet m x)); apply IH.
Qed.

Lemma forwardLoop_gen fuel graph reachable forward queue :
  forwardLoop fuel graph reachable forward queue
  = genLoop (succs graph) (mapGet reachable) fuel forward queue.
Proof.
  revert forward queue. induction fuel as [|fuel IH]; intros m q.
  - by destruct q.
  - destruct q as [|cur q]; [done|]. simpl. rewrite forwardMark_gen.
    destruct (genMark _ _ _ _). apply IH.
Qed.

Section BfsInvariant.
Context (nb : string → list string) (keep : string → bool).
Context (seed : string → Prop).

Local Abbreviation mark := (genMark keep).
Local Abbreviation inv := (bfsInv nb keep seed).

Lemma genMark_spec l :
  ∀ m q m' q',
    mark l m q = (m', q') →
    (∀ x, mapGet m' x = true ↔ mapGet m x = true ∨ (x ∈ l ∧ keep x = true)) ∧
    (∃ added, q' = q ++ added ∧
       (∀ x, x ∈ added → x ∈ l ∧ keep x = true) ∧
       (∀ x, mapGet m' x = true → mapGet m x = false → x ∈ added)) ∧
    ((∀ x b, m !! x = Some b → b = true) → ∀ x b, m' !! x = Some b → b = true).
Proof.
  induction l as [|y l IH]; intros m q m' q' Hrun; simpl in Hrun.
  { injection Hrun as <- <-. split; [|split; [|done]].
    - intros x. split; [by left|]. intros [?|[?%not_elem_of_nil _]]; done.
    - exists []. rewrite app_nil_r. split; [done|]. split.
      + by intros x ?%not_elem_of_nil.
      + intros x ??. congruence. }
  destruct (keep y && negb (mapGet m y)) eqn:Hy.
  - apply andb_true_iff in Hy as [Hk Hm]. apply negb_true_iff in Hm.
    apply IH in Hrun as (Hm' & (added & -> & Hin & Hnew) & Htrue).
    split; [|split].
    + intros x. rewrite Hm', mapGet_insert, elem_of_cons.
      case_decide; naive_solver.
    + exists (y :: added). rewrite <- app_assoc. split; [done|]. split.
      * intros x [->|Hx]%elem_of_cons; [split; [by left|done]|].
        destruct (Hin x Hx). split; [by right|done].
      * intros x Hx' Hx. destruct (decide (y = x)) as [->|Hne]; [by left|].
        right. apply Hnew; [done|]. rewrite mapGet_insert. by case_decide.
    + intros Hall. apply Htrue. intros x b. rewrite lookup_insert.
      case_decide; [by intros [= <-]|apply Hall].
  - apply IH in Hrun as (Hm' & (added & -> & Hin & Hnew) & Htrue).
    split; [|split; [|done]].
    + intros x. rewrite Hm', elem_of_cons.
      apply andb_false_iff in Hy as [Hy|Hy%negb_false_iff]; [|naive_solver].
      split; [naive_solver|]. intros [?|[[->|?] ?]]; [auto|congruence|auto].
    + exists added. split; [done|]. split; [|done].
      intros x Hx. destruct (Hin x Hx). split; [by right|done].
Qed.

Lemma bfsInv_step m cur q m' q' :
  inv m (cur :: q) → mark (nb cur) m q = (m', q') → inv m' q'.
Proof.
  intros (I1 & I2 & I3 & I4 & I5) Hrun.
  apply genMark_spec in Hrun as (Hm' & (added & -> & Hin & Hnew) & Htrue).
  split; [|split; [|split; [|split]]].
  - intros x [Hx|Hx]%elem_of_app; apply Hm'.
    + left. apply I1. by right.
    + right. by apply Hin.
  - intros x [Hx|[Hx Hk]]%Hm'; [by apply I2|].
    destruct (I2 cur) as (i & Hi & Hrtc); [apply I1; by left|].
    exists i. split; [done|]. eapply rtc_r; [exact Hrtc|]. by split.
  - intros x Hx. apply Hm'. left. by apply I3.
  - intros x y Hx Hq [Hy Hk]. destruct (mapGet m x) eqn:Hmx.
    + destruct (decide (x = cur)) as [->|Hne].
      * apply Hm'. by right.
      * apply Hm'. left. apply (I4 x y); [done| |by split].
        intros [?|?]%elem_of_cons; [done|]. apply Hq, elem_of_app. by left.
    + exfalso. apply Hq, elem_of_app. right. by apply Hnew.
  - by apply Htrue.
Qed.

Lemma bfsInv_done m :
  inv m [] →
  (∀ x, mapGet m x = true ↔ ∃ i, seed i ∧ rtc (bfsStep nb keep) i x) ∧
  (∀ x b, m !! x = Some b → b = true).
Proof.
  intros (_ & I2 & I3 & I4 & I5). split; [|done].
  intros x. split; [apply I2|]. intros (i & Hi & Hrtc).
  revert x Hrtc. apply rtc_ind_r; [by apply I3|].
  intros y z _ Hyz IHy. apply (I4 y z); [done|apply not_elem_of_nil|done].
Qed.

Lemma genLoop_spec fuel :
  ∀ m q r,
    inv m q → genLoop nb keep fuel m q = Some r →
    (∀ x, mapGet r x = true ↔ ∃ i, seed i ∧ rtc (bfsStep nb keep) i x) ∧
    (∀ x b, r !! x = Some b → b = true).
Proof.
  induction fuel as [|fuel IH]; intros m q r Hinv Hrun.
  - destruct q; [|done]. injection Hrun as <-. by apply bfsInv_done.
  - destruct q as [|cur q].
    { injection Hrun as <-. by apply bfsInv_done. }
    simpl in Hrun. destruct (mark (nb cur) m q) as [m' q'] eqn:Hmark.
    eapply IH; [|exact Hrun]. by eapply bfsInv_step.
Qed.
End BfsInvariant.

Section BfsFuel.
Context (nb : string → list string) (keep : string → bool).
(** Every node that can ever be queued lies in [U]. *)
Context (U : gset string).
Context (HU : ∀ x y, y ∈ nb x → keep y = true → y ∈ U).

Local Abbreviation mark := (genMark keep).

Lemma unmarked_insert (m : BoolMap) y :
  y ∈ U → mapGet m y = false →
  (size (unmarked U (<[y := true]> m)) + 1 = size (unmarked U m))%nat.
Proof.
  intros Hy Hm.
  assert (unmarked U m = {[y]} ∪ unmarked U (<[y := true]> m)) as ->.
  { apply set_eq. intros x. unfold unmarked.
    rewrite elem_of_union, !elem_of_filter, elem_of_singleton, mapGet_insert.
    case_decide as Hxy; [subst x|]; naive_solver. }
  rewrite size_union, size_singleton; [lia|].
  apply disjoint_singleton_l. unfold unmarked.
  rewrite elem_of_filter, mapGet_insert. case_decide; naive_solver.
Qed.

Lemma genMark_measure l :
  (∀ y, y ∈ l → keep y = true → y ∈ U) →
  ∀ m q m' q',
    mark l m q = (m', q') →
    (length q' + size (unmarked U m') = length q + size (unmarked U m))%nat.
Proof.
  induction l as [|y l IH]; intros Hl m q m' q' Hrun; simpl in Hrun.
  { by injection Hrun as <- <-. }
  assert (∀ y, y ∈ l → keep y = true → y ∈ U) as Hl'.
  { intros ???. apply Hl; [by right|done]. }
  destruct (keep y && negb (mapGet m y)) eqn:Hy; [|by apply IH].
  apply andb_true_iff in Hy as [Hk Hm]. apply negb_true_iff in Hm.
  apply IH in Hrun; [|done]. rewrite Hrun, length_app. simpl.
  pose proof (unmarked_insert m y (Hl y ltac:(by left) Hk) Hm). lia.
Qed.

Lemma genLoop_total fuel :
  ∀ m q,
    (length q + size (unmarked U m) ≤ fuel)%nat →
    is_Some (genLoop nb keep fuel m q).
Proof.
  induction fuel as [|fuel IH]; intros m q Hfuel.
  - destruct q; [by eexists|simpl in Hfuel; lia].
  - destruct q as [|cur q]; [by eexists|]. simpl.
    destruct (mark (nb cur) m q) as [m' q'] eqn:Hmark. apply IH.
    apply genMark_measure in Hmark; [simpl in Hfuel; lia|].
    intros y. apply HU.
Qed.
End BfsFuel.

(** ** [computeReachableToTarget] *)

Lemma rtc_flip {A} (R S : relation A) x y :
  (∀ a b, R a b → S b a) → rtc R x y → rtc S y x.
Proof.
  intros HRS Hrtc. induction Hrtc as [|a b c Hab Hbc IH]; [done|].
  eapply rtc_r; [exact IH|]. by apply HRS.
Qed.

Lemma addReverse_spec tos :
  ∀ (rev : Graph) from x y,
    y ∈ succs (addReverse rev from tos) x ↔
    y ∈ succs rev x ∨ (y = from ∧ x ∈ tos).
Proof.
  unfold addReverse.
  induction tos as [|to tos IH]; intros rev from x y; simpl.
  - split; [by left|]. intros [?|[_ ?%not_elem_of_nil]]; done.
  - rewrite IH, succs_insert, elem_of_cons. case_decide as Hto.
    + subst x. rewrite elem_of_app, list_elem_of_singleton. naive_solver.
    + naive_solver.
Qed.

Lemma buildReverse_spec entries x y :
  y ∈ succs (buildReverse entries) x ↔ ∃ tos, (y, tos) ∈ entries ∧ x ∈ tos.
Proof.
  unfold buildReverse.
  assert (∀ rev : Graph,
            y ∈ succs (foldl (λ r e, addReverse r e.1 e.2) rev entries) x ↔
            y ∈ succs rev x ∨ ∃ tos, (y, tos) ∈ entries ∧ x ∈ tos) as Hgen.
  { induction entries as [|[from tos] entries IH]; intros rev; simpl.
    - split; [by left|]. intros [?|(? & ?%not_elem_of_nil & _)]; done.
    - rewrite IH, addReverse_spec. split.
      + intros [[?|[-> ?]]|(tos' & ? & ?)]; [by left| |].
        * right. exists tos. split; [by left|done].
        * right. exists tos'. split; [by right|done].
      + intros [?|(tos' & [[= -> ->]|?]%elem_of_cons & ?)];
          [by left; left|by left; right|].
        right. by exists tos'. }
  rewrite Hgen. unfold succs at 1. rewrite lookup_empty. simpl.
  split; [intros [?%not_elem_of_nil|?]; done|by right].
Qed.

Lemma buildReverse_edge (graph : Graph) entries x y :
  entries ≡ₚ map_to_list graph →
  y ∈ succs (buildReverse entries) x ↔ edge graph y x.
Proof.
  intros Hperm. rewrite buildReverse_spec. unfold edge, succs. split.
  - intros (tos & Hin & Hx). rewrite Hperm in Hin.
    apply elem_of_map_to_list in Hin. by rewrite Hin.
  - intros Hx. destruct (graph !! y) as [tos|] eqn:Hy;
      [|by apply not_elem_of_nil in Hx].
    exists tos. split; [|done]. rewrite Hperm. by apply elem_of_map_to_list.
Qed.

Lemma unmarked_size U m : (size (unmarked U m) ≤ size U)%nat.
Proof.
  apply subseteq_size. intros x. unfold unmarked. rewrite elem_of_filter.
  tauto.
Qed.

Lemma mapGet_true (m : BoolMap) x :
  (∀ y b, m !! y = Some b → b = true) →
  m !! x = Some true ↔ mapGet m x = true.
Proof.
  intros Hall. unfold mapGet. split; [by intros ->|].
  destruct (m !! x) as [b|] eqn:Hx; [|done]. simpl. by intros ->.
Qed.

(** C1. Whatever the order in which [range graph] delivers the entries,
    [computeReachableToTarget] returns, and a node is a member of the
    returned set exactly when a directed path of zero or more edges leads
    from it to the target; the target is always a member, and when the
    target occurs nowhere in the graph the set is the singleton of the
    target. *)
Theorem computeReachableToTarget_spec
    (graph : Graph) entries target (k : nat) :
  entries ≡ₚ map_to_list graph →
  ∃ r,
    computeReachableToTarget (S (size graph) + k) target entries = Some r ∧
    (∀ n, r !! n = Some true ↔ rtc (edge graph) n target) ∧
    r !! target = Some true ∧
    (¬ occurs graph target → r = {[ target := true ]}).
Proof.
  intros Hperm. unfold computeReachableToTarget. rewrite reverseLoop_gen.
  set (nb := succs (buildReverse entries)).
  set (keep := λ _ : string, true).
  assert (∀ x y, bfsStep nb keep x y ↔ edge graph y x) as Hstep.
  { intros x y. unfold bfsStep, nb, keep.
    rewrite (buildReverse_edge graph) by done. tauto. }
  destruct (genLoop_total nb keep (dom graph)) with
    (fuel := (S (size graph) + k)%nat) (m := ({[target := true]} : BoolMap))
    (q := [target]) as [r Hrun].
  { intros x y Hy Hk. apply (succs_nonempty_dom graph y x).
    by apply Hstep. }
  { pose proof (unmarked_size (dom graph) {[target := true]}) as Hle.
    rewrite size_dom in Hle. simpl. lia. }
  exists r. split; [done|].
  apply (genLoop_spec nb keep (λ i, i = target)) in Hrun as [Hmem Htrue].
  2:{ split; [|split; [|split; [|split]]].
      - intros x ->%list_elem_of_singleton. unfold mapGet.
        by rewrite lookup_singleton_eq.
      - intros x Hx. exists target. split; [done|].
        unfold mapGet in Hx. destruct (decide (x = target)) as [->|Hne];
          [done|]. by rewrite lookup_singleton_ne in Hx.
      - intros x ->. unfold mapGet. by rewrite lookup_singleton_eq.
      - intros x y Hx Hq. exfalso. apply Hq, list_elem_of_singleton.
        unfold mapGet in Hx. destruct (decide (x = target)) as [->|Hne];
          [done|]. by rewrite lookup_singleton_ne in Hx.
      - intros x b. destruct (decide (x = target)) as [->|Hne].
        + rewrite lookup_singleton_eq. by intros [= <-].
        + by rewrite lookup_singleton_ne. }
  assert (∀ n, r !! n = Some true ↔ rtc (edge graph) n target) as Hspec.
  { intros n. rewrite mapGet_true, Hmem by done. split.
    - intros (i & -> & Hrtc). eapply rtc_flip; [|exact Hrtc].
      intros a b. apply Hstep.
    - intros Hrtc. exists target. split; [done|].
      eapply rtc_flip; [|exact Hrtc]. intros a b. apply Hstep. }
  split; [done|]. split; [by apply Hspec|].
  intros Hocc. apply map_eq. intros n.
  destruct (decide (n = target)) as [->|Hne].
  - rewrite lookup_singleton_eq. by apply Hspec.
  - rewrite lookup_singleton_ne by done.
    destruct (r !! n) as [b|] eqn:Hn; [|done]. exfalso.
    assert (b = true) as -> by by eapply Htrue.
    apply Hspec in Hn.
    by apply (no_route_without_target_edge graph n target Hne (or_intror Hocc)).
Qed.

Lemma computeReachableToTarget_spec_witness :
  map_to_list diamond ≡ₚ map_to_list diamond ∧
  ∃ r,
    computeReachableToTarget (S (size diamond) + 0) "D" (map_to_list diamond)
      = Some r ∧
    (∀ n, r !! n = Some true ↔ rtc (edge diamond) n "D") ∧
    r !! "D" = Some true ∧
    (¬ occurs diamond "D" → r = {[ "D" := true ]}).
Proof.
  split; [reflexivity|].
  apply (computeReachableToTarget_spec diamond (map_to_list diamond) "D" 0%nat).
  reflexivity.
Defined.

(** ** [findAllPaths] on the reachability map of the target *)

Lemma computeReachableToTarget_core
    (graph : Graph) entries target (k : nat) :
  entries ≡ₚ map_to_list graph →
  ∃ r,
    computeReachableToTarget (S (size graph) + k) target entries = Some r ∧
    (∀ n, mapGet r n = true ↔ rtc (edge graph) n target) ∧
    (∀ x b, r !! x = Some b → b = true).
Proof.
  intros Hperm. unfold computeReachableToTarget. rewrite reverseLoop_gen.
  set (nb := succs (buildReverse entries)).
  set (keep := λ _ : string, true).
  assert (∀ x y, bfsStep nb keep x y ↔ edge graph y x) as Hstep.
  { intros x y. unfold bfsStep, nb, keep.
    rewrite (buildReverse_edge graph) by done. tauto. }
  destruct (genLoop_total nb keep (dom graph)) with
    (fuel := (S (size graph) + k)%nat) (m := ({[target := true]} : BoolMap))
    (q := [target]) as [r Hrun].
  { intros x y Hy Hk. apply (succs_nonempty_dom graph y x).
    by apply Hstep. }
  { pose proof (unmarked_size (dom graph) {[target := true]}) as Hle.
    rewrite size_dom in Hle. simpl. lia. }
  exists r. split; [done|].
  apply (genLoop_spec nb keep (λ i, i = target)) in Hrun as [Hmem Htrue].
  2:{ split; [|split; [|split; [|split]]].
      - intros x ->%list_elem_of_singleton. unfold mapGet.
        by rewrite lookup_singleton_eq.
      - intros x Hx. exists target. split; [done|].
        unfold mapGet in Hx. destruct (decide (x = target)) as [->|Hne];
          [done|]. by rewrite lookup_singleton_ne in Hx.
      - intros x ->. unfold mapGet. by rewrite lookup_singleton_eq.
      - intros x y Hx Hq. exfalso. apply Hq, list_elem_of_singleton.
        unfold mapGet in Hx. destruct (decide (x = target)) as [->|Hne];
          [done|]. by rewrite lookup_singleton_ne in Hx.
      - intros x b. destruct (decide (x = target)) as [->|Hne].
        + rewrite lookup_singleton_eq. by intros [= <-].
        + by rewrite lookup_singleton_ne. }
  split; [|done]. intros n. rewrite Hmem. split.
  - intros (i & -> & Hrtc). eapply rtc_flip; [|exact Hrtc].
    intros a b. apply Hstep.
  - intros Hrtc. exists target. split; [done|].
    eapply rtc_flip; [|exact Hrtc]. intros a b. apply Hstep.
Qed.

(** What [computeReachableToTarget] returns is a reachability map for the
    target, whatever the order of [range]. *)
Lemma computeReachableToTarget_reachabilityMap
    (graph : Graph) entries target (k : nat) :
  entries ≡ₚ map_to_list graph →
  ∃ r,
    computeReachableToTarget (S (size graph) + k) target entries = Some r ∧
    reachabilityMap graph target r.
Proof.
  intros Hperm.
  destruct (computeReachableToTarget_core graph entries target k Hperm)
    as (r & Hrun & Hmem & _).
  by exists r.
Qed.

(** Every node of a chain of edges leads to the last node of the chain. *)
Lemma chained_member_rtc g p x t :
  chained g p → last p = Some t → x ∈ p → rtc (edge g) x t.
Proof.
  induction p as [|a p IH]; intros Hc Hl Hx; [by apply not_elem_of_nil in Hx|].
  apply elem_of_cons in Hx as [->|Hx].
  - by apply (chained_rtc g (a :: p)).
  - destruct p as [|b p]; [by apply not_elem_of_nil in Hx|].
    destruct Hc as [_ Hc]. by apply IH.
Qed.

(** C5. For every graph, start, target and reachability map of the target,
    [findAllPaths] called with an empty output returns, and with
    [maxPaths = N > 0] it leaves at most [N] paths in the output, while with
    [maxPaths <= 0] it produces every simple path from [start] to [target]
    that has at most [whyMaxDepth] edges when that limit is positive. The
    map [computeReachableToTarget] returns is such a map
    ([computeReachableToTarget_reachabilityMap]). *)
Theorem findAllPaths_budget D target graph reachable N start (k : nat) :
  reachabilityMap graph target reachable →
  ∃ v out,
    findAllPaths D target graph reachable N (S (size graph) + k) start [] ∅ []
      = Some (v, out) ∧
    (0 < N → len out ≤ N) ∧
    (N ≤ 0 →
     ∀ p, head p = Some start → last p = Some target → NoDup p →
          chained graph p → (0 < D → len p ≤ D + 1) → p ∈ out).
Proof.
  intros Hmap.
  destruct (findAllPaths_budget_marked D target graph reachable N start k)
    as (v & out & Hrun & Hb & Hall).
  exists v, out. split; [done|]. split; [done|].
  intros HN p Hh Hl Hnd Hc Hd. apply Hall; [done..| |done].
  intros x Hx. apply Hmap. by apply (chained_member_rtc graph p).
Qed.

Lemma findAllPaths_budget_witness :
  ∃ reachable,
    computeReachableToTarget (S (size diamond) + 0) "D" (map_to_list diamond)
      = Some reachable ∧
    reachabilityMap diamond "D" reachable ∧
    ∃ v out,
      findAllPaths 0 "D" diamond reachable 0 (S (size diamond) + 0)
                   "A" [] ∅ [] = Some (v, out) ∧
      (0 < 0 → len out ≤ 0) ∧
      (0 ≤ 0 →
       ∀ p, head p = Some "A" → last p = Some "D" → NoDup p →
            chained diamond p → (0 < 0 → len p ≤ 0 + 1) → p ∈ out).
Proof.
  destruct (computeReachableToTarget_reachabilityMap diamond
              (map_to_list diamond) "D" 0%nat) as (r & Hrun & Hmap);
    [reflexivity|].
  exists r. split; [exact Hrun|]. split; [exact Hmap|].
  exact (findAllPaths_budget 0 "D" diamond r 0 "A" 0%nat Hmap).
Defined.

(** ** The depth-first edge classification of [computePathSubgraph] *)

Section DfsFrame.
Context (adj : Graph).

Local Abbreviation frame := (dfsFrame adj).

(** The three-way switch, case by case. *)
Lemma dfsLoop_cons rec cur next rest st E :
  dfsLoop rec cur (next :: rest) st E =
  if decide (stateGet st next = visitUnseen) then
    match rec next st ({[ {| From := cur; To := next |} ]} ∪ E) with
    | None => None
    | Some (st', E') => dfsLoop rec cur rest st' E'
    end
  else if decide (stateGet st next = visitActive) then
    dfsLoop rec cur rest st E
  else dfsLoop rec cur rest st ({[ {| From := cur; To := next |} ]} ∪ E).
Proof.
  simpl. unfold visitUnseen, visitActive.
  destruct (stateGet st next) as [|[q|q|]|q]; by repeat case_decide.
Qed.

Lemma dfsFrame_refl st E : frame st E st E.
Proof. split; [done|]. split; [done|]. split; [done|]. split; auto. Qed.

Lemma dfsFrame_trans st E st1 E1 st2 E2 :
  frame st E st1 E1 → frame st1 E1 st2 E2 → frame st E st2 E2.
Proof.
  intros (HE1 & Hu1 & Ha1 & Hf1 & Hn1) (HE2 & Hu2 & Ha2 & Hf2 & Hn2).
  split; [by etrans|]. split; [auto|]. split; [auto|]. split; [auto|].
  intros e [He|?]%Hn2; [|by right]. by apply Hn1.
Qed.

Lemma dfsFrame_record st E cur next :
  next ∈ succs adj cur →
  frame st E st ({[ {| From := cur; To := next |} ]} ∪ E).
Proof.
  intros Hnext. split; [apply union_subseteq_r|]. split; [done|].
  split; [done|]. split; [done|].
  intros e [->%elem_of_singleton|?]%elem_of_union; [by right|by left].
Qed.

Lemma dfsLoop_frame rec cur nexts :
  (∀ n st E st' E', rec n st E = Some (st', E') → frame st E st' E') →
  (∀ n, n ∈ nexts → n ∈ succs adj cur) →
  ∀ st E st' E',
    dfsLoop rec cur nexts st E = Some (st', E') → frame st E st' E'.
Proof.
  intros Hrec.
  induction nexts as [|n nexts IH]; intros Hsub st E st' E' Hrun.
  { injection Hrun as <- <-. apply dfsFrame_refl. }
  assert (∀ st E st' E',
            dfsLoop rec cur nexts st E = Some (st', E') → frame st E st' E')
    as IH' by (apply IH; intros ??; apply Hsub; by right).
  assert (frame st E st ({[ {| From := cur; To := n |} ]} ∪ E)) as Hadd
    by (apply dfsFrame_record, Hsub; by left).
  rewrite dfsLoop_cons in Hrun. repeat case_decide.
  - destruct (rec n st _) as [[st1 E1]|] eqn:Hcall; [|done].
    eapply dfsFrame_trans; [exact Hadd|].
    eapply dfsFrame_trans; [by eapply Hrec|by apply IH'].
  - by apply IH'.
  - eapply dfsFrame_trans; [exact Hadd|by apply IH'].
Qed.

Lemma finished_insert st cur z x :
  finished (<[cur := z]> st) x ↔
  if decide (cur = x) then z ≠ visitUnseen ∧ z ≠ visitActive
  else finished st x.
Proof. unfold finished. rewrite stateGet_insert. by case_decide. Qed.

Lemma dfs_frame fuel :
  ∀ cur st E st' E',
    dfs adj fuel cur st E = Some (st', E') →
    frame st E st' E' ∧ stateGet st' cur = visitDone.
Proof.
  induction fuel as [|fuel IH]; intros cur st E st' E' Hrun; [done|].
  simpl in Hrun.
  destruct (dfsLoop _ _ _ _ _) as [[st2 E2]|] eqn:Hloop; [|done].
  injection Hrun as <- <-.
  split; [|by rewrite stateGet_insert, decide_True].
  apply dfsLoop_frame in Hloop as (HE & Hu & Ha & Hf & Hn);
    [|intros n st1 E1 st1' E1' Hcall; by apply IH in Hcall as [? _]|done].
  split; [done|]. split; [|split; [|split; [|done]]].
  - intros x. rewrite stateGet_insert. case_decide as Hx; [done|].
    intros Hx2%Hu. rewrite stateGet_insert in Hx2. by case_decide.
  - intros x. rewrite stateGet_insert. case_decide as Hx; [done|].
    intros Hx2%Ha. rewrite stateGet_insert in Hx2. by case_decide.
  - intros x Hx. apply finished_insert. case_decide; [done|].
    apply Hf, finished_insert. by case_decide.
Qed.

Lemma dfsAll_frame fuel nodes :
  ∀ st E st' E',
    dfsAll adj fuel nodes st E = Some (st', E') →
    frame st E st' E' ∧ ∀ x, x ∈ nodes → stateGet st' x ≠ visitUnseen.
Proof.
  induction nodes as [|n nodes IH]; intros st E st' E' Hrun; simpl in Hrun.
  { injection Hrun as <- <-. split; [apply dfsFrame_refl|].
    by intros x ?%not_elem_of_nil. }
  case_bool_decide as Hn.
  - destruct (dfs adj fuel n st E) as [[st1 E1]|] eqn:Hcall; [|done].
    apply dfs_frame in Hcall as [Hfr1 Hdone].
    apply IH in Hrun as [Hfr2 Hrest].
    split; [by eapply dfsFrame_trans|].
    intros x [->|Hx]%elem_of_cons; [|by apply Hrest].
    destruct Hfr2 as (_ & Hu & _). intros Hx%Hu. by rewrite Hdone in Hx.
  - apply IH in Hrun as [Hfr Hrest]. split; [done|].
    intros x [->|Hx]%elem_of_cons; [|by apply Hrest].
    destruct Hfr as (_ & Hu & _). intros Hx%Hu. done.
Qed.

(** Enough fuel: one unit for each key of [adj] that is still unseen, and
    one more. *)
Lemma dfsLoop_total rec (P : gmap string Z → Prop) cur nexts :
  (∀ n st E, n ∈ nexts → stateGet st n = visitUnseen → P st →
             is_Some (rec n st E)) →
  (∀ n st E st' E', rec n st E = Some (st', E') → frame st E st' E') →
  (∀ st E st' E', frame st E st' E' → P st → P st') →
  ∀ st E, P st → is_Some (dfsLoop rec cur nexts st E).
Proof.
  intros Hrec Hfr HP. revert Hrec.
  induction nexts as [|n nexts IH]; intros Hrec st E Hst; [by eexists|].
  assert (∀ st E, P st → is_Some (dfsLoop rec cur nexts st E)) as IH'
    by (apply IH; intros ??????; apply Hrec; [by right|done|done]).
  rewrite dfsLoop_cons. repeat case_decide; [|by apply IH'..].
  destruct (Hrec n st ({[ {| From := cur; To := n |} ]} ∪ E))
    as [[st1 E1] Hcall]; [by left|done|done|].
  rewrite Hcall. apply IH'. eapply HP; [by eapply Hfr|done].
Qed.

Lemma dfs_total fuel :
  ∀ (U : gset string) cur st E,
    (size U < fuel)%nat →
    (∀ x, x ∈ dom adj → stateGet st x = visitUnseen → x ∈ U) →
    stateGet st cur = visitUnseen →
    is_Some (dfs adj fuel cur st E).
Proof.
  induction fuel as [|fuel IH]; intros U cur st E Hsize HU Hcur; [lia|].
  simpl.
  set (P := λ s : gmap string Z,
         cur ∈ dom adj → ∀ x, x ∈ dom adj → stateGet s x = visitUnseen →
                              x ∈ U ∖ {[cur]}).
  destruct (dfsLoop_total (dfs adj fuel) P cur (succs adj cur))
    with (st := <[cur := visitActive]> st) (E := E) as [[st2 E2] ->];
    [| | | |by eexists].
  - intros n s F Hn Hn0 Hs. apply succs_nonempty_dom in Hn.
    apply (IH (U ∖ {[cur]})); [|by apply Hs|done].
    assert (cur ∈ U) by by apply HU.
    assert (size U = size (U ∖ {[cur]}) + 1)%nat; [|lia].
    rewrite (union_difference_L {[cur]} U) at 1
      by by apply singleton_subseteq_l.
    rewrite size_union by apply disjoint_difference_r1, reflexivity.
    rewrite size_singleton. lia.
  - intros n s F s' F' Hcall. by apply dfs_frame in Hcall as [? _].
  - intros s F s' F' (_ & Hu & _) Hs Hc x Hx Hx0. apply Hs; auto.
  - intros Hc x Hx. rewrite stateGet_insert. case_decide; [done|].
    intros Hx0. apply elem_of_difference. split; [by apply HU|].
    by apply not_elem_of_singleton.
Qed.

Lemma dfsAll_total fuel nodes :
  (size adj < fuel)%nat →
  ∀ st E, is_Some (dfsAll adj fuel nodes st E).
Proof.
  intros Hfuel. induction nodes as [|n nodes IH]; intros st E; [by eexists|].
  simpl. case_bool_decide as Hn; [|apply IH].
  destruct (dfs_total fuel (dom adj) n st E) as [[st1 E1] ->];
    [by rewrite size_dom|done|done|apply IH].
Qed.
End DfsFrame.

(** ** The finishing order rules out cycles *)

Lemma finishedBefore_app fin new u v :
  finishedBefore fin u v → finishedBefore (new ++ fin) u v.
Proof.
  intros (i & j & Hi & Hj & Hij).
  exists (length new + i)%nat, (length new + j)%nat.
  rewrite !lookup_app_r, !Nat.add_sub' by lia. split; [done|].
  split; [done|lia].
Qed.

Lemma finishedBefore_head fin u v :
  v ∈ fin → finishedBefore (u :: fin) u v.
Proof.
  intros (j & Hj)%list_elem_of_lookup. exists 0%nat, (S j).
  split; [done|]. split; [done|lia].
Qed.


Lemma finishedBefore_irrefl fin u : NoDup fin → ¬ finishedBefore fin u u.
Proof.
  intros Hnd (i & j & Hi & Hj & Hij).
  assert (i = j) by by eapply NoDup_lookup. lia.
Qed.


(** Closes a goal from two different readings of one state. *)
Ltac state_clash :=
  unfold visitUnseen, visitActive, visitDone in *; congruence.

Lemma state_cases (st : gmap string Z) x :
  stateGet st x = visitUnseen ∨ stateGet st x = visitActive ∨ finished st x.
Proof.
  unfold finished.
  destruct (decide (stateGet st x = visitUnseen)); [by left|].
  destruct (decide (stateGet st x = visitActive)); [by right; left|].
  by right; right.
Qed.

Section DfsOrder.
Context (adj : Graph).

Lemma dfsInv_record st E fin cur n :
  dfsInv st E fin → stateGet st cur = visitActive →
  dfsInv st ({[ {| From := cur; To := n |} ]} ∪ E) fin.
Proof.
  intros (Hnd & Hfin & Hsrc & Hord) Hcur.
  split; [done|]. split; [done|]. split.
  - intros e [->%elem_of_singleton|?]%elem_of_union; [|by apply Hsrc].
    simpl. by rewrite Hcur.
  - intros e [->%elem_of_singleton|?]%elem_of_union; [|by apply Hord].
    simpl. intros [_ Hc]%Hfin. done.
Qed.

Lemma dfsLoop_order rec cur nexts :
  (∀ n st E fin st' E',
      stateGet st n = visitUnseen → dfsInv st E fin →
      rec n st E = Some (st', E') →
      dfsFrame adj st E st' E' ∧ stateGet st' n = visitDone ∧
      ∃ new, dfsPost st E fin st' E' new) →
  ∀ st E fin st' E',
    dfsLoopInv cur st E fin →
    dfsLoop rec cur nexts st E = Some (st', E') →
    ∃ new,
      dfsLoopInv cur st' E' (new ++ fin) ∧
      (∀ x, x ∈ new → stateGet st x = visitUnseen) ∧
      (∀ e, e ∈ E' → e ∈ E ∨ From e = cur ∨ From e ∈ new).
Proof.
  intros Hrec.
  induction nexts as [|n nexts IH]; intros st E fin st' E' Hinv Hrun.
  { injection Hrun as <- <-. exists []. split; [done|].
    split; [by intros x ?%not_elem_of_nil|]. intros e ?. by left. }
  rewrite dfsLoop_cons in Hrun.
  destruct Hinv as (Hinv & Hcur & Hout).
  case_decide as Hn0; [|case_decide as Hn1].
  - destruct (rec n st _) as [[st1 E1]|] eqn:Hcall; [|done].
    apply (Hrec _ _ _ fin) in Hcall
      as (Hfr & Hdone & new1 & Hinv1 & Hnew1 & Hedges1);
      [|done|by apply dfsInv_record].
    assert (stateGet st1 cur = visitActive) as Hcur1.
    { destruct (state_cases st1 cur) as [H0|[?|Hf]]; [|done|].
      - destruct Hfr as (_ & Hu & _). apply Hu in H0. state_clash.
      - exfalso. destruct Hinv1 as (_ & Hfin1 & _).
        apply Hfin1, elem_of_app in Hf as [Hf|Hf].
        + apply Hnew1 in Hf. state_clash.
        + destruct Hinv as (_ & Hfin & _). apply Hfin in Hf as [_ ?].
          done. }
    destruct (IH st1 E1 (new1 ++ fin) st' E') as (new2 & Hinv2 & Hnew2 & He2);
      [|done|].
    { split; [done|]. split; [done|].
      intros e [[->%elem_of_singleton|He]%elem_of_union|He]%Hedges1 Hsrc.
      - simpl. destruct Hinv1 as (_ & Hfin1 & _). apply Hfin1.
        split; rewrite Hdone; done.
      - apply elem_of_app. right. by apply Hout.
      - rewrite Hsrc in He. apply Hnew1 in He. state_clash. }
    exists (new2 ++ new1). rewrite <- app_assoc. split; [done|]. split.
    + intros x [Hx|Hx]%elem_of_app; [|by apply Hnew1].
      destruct Hfr as (_ & Hu & _). by apply Hu, Hnew2.
    + intros e [He|[?|He]]%He2; [|by right; left|].
      * apply Hedges1 in He
          as [[->%elem_of_singleton|He]%elem_of_union|He];
          [by right; left|by left|].
        right; right. apply elem_of_app. by right.
      * right; right. apply elem_of_app. by left.
  - by eapply IH.
  - destruct (IH st ({[ {| From := cur; To := n |} ]} ∪ E) fin st' E')
      as (new & Hinv' & Hnew & He'); [|done|].
    { split; [by apply dfsInv_record|]. split; [done|].
      intros e [->%elem_of_singleton|He]%elem_of_union Hsrc;
        [|by apply Hout].
      simpl. destruct Hinv as (_ & Hfin & _). by apply Hfin. }
    exists new. split; [done|]. split; [done|].
    intros e [[->%elem_of_singleton|He]%elem_of_union|?]%He';
      [by right; left|by left|by right].
Qed.

Lemma dfs_order fuel :
  ∀ cur st E fin st' E',
    stateGet st cur = visitUnseen → dfsInv st E fin →
    dfs adj fuel cur st E = Some (st', E') →
    ∃ new, dfsPost st E fin st' E' new.
Proof.
  induction fuel as [|fuel IH]; intros cur st E fin st' E' Hcur Hinv Hrun;
    [done|].
  simpl in Hrun.
  destruct (dfsLoop _ _ _ _ _) as [[st2 E2]|] eqn:Hloop; [|done].
  injection Hrun as <- <-.
  destruct Hinv as (Hnd & Hfin & Hsrc & Hord).
  apply (dfsLoop_order _ _ _) with (fin := fin) in Hloop
    as (new & ((Hnd2 & Hfin2 & Hsrc2 & Hord2) & Hcur2 & Hout2) & Hnew & He2).
  - assert (cur ∉ new ++ fin) as Hfresh.
    { intros [_ Hc]%Hfin2. done. }
    exists (cur :: new). split; [split; [|split; [|split]]|split].
    + simpl. by apply NoDup_cons.
    + intros x. simpl. rewrite elem_of_cons, finished_insert, Hfin2.
      case_decide as Hx; [|naive_solver]. subst x. split; [done|]. by left.
    + intros e He. rewrite stateGet_insert. case_decide; [done|].
      by apply Hsrc2.
    + intros e He. simpl. intros [Hc|Hin]%elem_of_cons.
      * rewrite Hc. apply finishedBefore_head. by apply Hout2.
      * apply (finishedBefore_app _ [cur]). by apply Hord2.
    + intros x [->|Hx]%elem_of_cons; [done|]. apply Hnew in Hx.
      rewrite stateGet_insert in Hx. by case_decide.
    + intros e [?|[?|?]]%He2;
        [by left|right; apply elem_of_cons; by left
        |right; apply elem_of_cons; by right].
  - intros n s F fn s' F' Hn Hi Hcall. split; [|split].
    + by apply dfs_frame in Hcall as [? _].
    + by apply dfs_frame in Hcall as [_ ?].
    + by eapply IH.
  - split; [split; [done|split; [|split]]|split].
    + intros x. rewrite Hfin, finished_insert. case_decide as Hx; [|done].
      subst x. split; [intros [? _]; done|intros [_ ?]; done].
    + intros e He. rewrite stateGet_insert. case_decide; [done|].
      by apply Hsrc.
    + done.
    + by rewrite stateGet_insert, decide_True.
    + intros e He Hc. apply Hsrc in He. state_clash.
Qed.

Lemma dfsAll_order fuel nodes :
  ∀ st E fin st' E',
    dfsInv st E fin →
    dfsAll adj fuel nodes st E = Some (st', E') →
    ∃ fin', dfsInv st' E' fin'.
Proof.
  induction nodes as [|n nodes IH]; intros st E fin st' E' Hinv Hrun;
    simpl in Hrun.
  { injection Hrun as <- <-. by exists fin. }
  case_bool_decide as Hn; [|by eapply IH].
  destruct (dfs adj fuel n st E) as [[st1 E1]|] eqn:Hcall; [|done].
  eapply dfs_order in Hcall as (new & Hinv1 & _); [|done|done].
  by eapply IH.
Qed.
End DfsOrder.

(** ** Every examined edge is recorded or leads to a linked node *)

Section DfsSettled.
Context (adj : Graph).

Lemma settled_mono (E E' : gset svgEdge) x :
  E ⊆ E' → settled adj E x → settled adj E' x.
Proof.
  intros HE Hs n Hn Hne. unfold edgeRel in *.
  destruct (Hs n Hn Hne) as [?|(c & ? & ?)]; [left; auto|].
  right. exists c. auto.
Qed.

Lemma finishedSettled_mono st (E E' : gset svgEdge) :
  E ⊆ E' → finishedSettled adj st E → finishedSettled adj st E'.
Proof. intros HE Hs x Hx. eapply settled_mono; [done|by apply Hs]. Qed.

Lemma activeLinked_frame st E st' E' :
  dfsFrame adj st E st' E' → activeLinked st E → activeLinked st' E'.
Proof.
  intros (HE & _ & Ha & _) Hact x Hx. destruct (Hact x) as (c & ? & ?);
    [by apply Ha|].
  exists c. split; [done|]. by apply HE.
Qed.

Lemma dfsLoop_settled rec cur nexts :
  (∀ n st E st' E', rec n st E = Some (st', E') → dfsFrame adj st E st' E') →
  (∀ n st E st' E',
      activeLinked st E → finishedSettled adj st E →
      rec n st E = Some (st', E') → finishedSettled adj st' E') →
  (∀ n, n ∈ nexts → n ∈ succs adj cur) →
  ∀ st E st' E',
    (∀ x, stateGet st x = visitActive → x ≠ cur →
          ∃ c, c ≠ x ∧ edgeRel E x c) →
    finishedSettled adj st E → stateGet st cur ≠ visitUnseen →
    dfsLoop rec cur nexts st E = Some (st', E') →
    finishedSettled adj st' E' ∧
    ∀ n, n ∈ nexts → n ≠ cur →
         edgeRel E' cur n ∨ ∃ c, c ≠ n ∧ edgeRel E' n c.
Proof.
  intros Hfr Hrec.
  induction nexts as [|n nexts IH]; intros Hsub st E st' E' Hact Hfin Hcur Hrun.
  { injection Hrun as <- <-. split; [done|]. by intros n ?%not_elem_of_nil. }
  assert (∀ m, m ∈ nexts → m ∈ succs adj cur) as Hsub'
    by (intros ??; apply Hsub; by right).
  assert (∀ st1 E1, dfsLoop rec cur nexts st1 E1 = Some (st', E') → E1 ⊆ E')
    as Hgrow.
  { intros st1 E1 Hl.
    by destruct (dfsLoop_frame adj rec cur nexts Hfr Hsub' _ _ _ _ Hl). }
  set (E1 := {[ {| From := cur; To := n |} ]} ∪ E).
  assert (E ⊆ E1) as HE1 by apply union_subseteq_r.
  assert (edgeRel E1 cur n) as Hrec1.
  { apply elem_of_union. left. by apply elem_of_singleton. }
  assert (∀ x, stateGet st x = visitActive → x ≠ cur →
               ∃ c, c ≠ x ∧ edgeRel E1 x c) as Hact1.
  { intros x Hx Hne. destruct (Hact x Hx Hne) as (c & ? & ?).
    exists c. split; [done|]. by apply HE1. }
  rewrite dfsLoop_cons in Hrun. fold E1 in Hrun.
  case_decide as Hn0; [|case_decide as Hn1].
  - destruct (rec n st E1) as [[st2 E2]|] eqn:Hcall; [|done].
    pose proof (Hfr _ _ _ _ _ Hcall) as Hframe.
    assert (n ≠ cur) as Hncur by (intros ->; done).
    assert (activeLinked st E1) as HactAll.
    { intros x Hx. destruct (decide (x = cur)) as [->|Hne]; [|by apply Hact1].
      by exists n. }
    apply Hrec in Hcall; [|done|by eapply finishedSettled_mono].
    destruct Hframe as (HE2 & Hu & Ha & _).
    destruct (IH Hsub' st2 E2 st' E') as [Hfin' Hnexts]; [|done| |done|].
    { intros x Hx Hne. destruct (Hact1 x (Ha x Hx) Hne) as (c & ? & ?).
      exists c. split; [done|]. by apply HE2. }
    { intros Hc. by apply Hu in Hc. }
    split; [done|]. intros m [->|Hm]%elem_of_cons Hne; [|by apply Hnexts].
    left. by eapply Hgrow, HE2.
  - destruct (IH Hsub' st E st' E') as [Hfin' Hnexts]; [done..|].
    split; [done|]. intros m [->|Hm]%elem_of_cons Hne; [|by apply Hnexts].
    right. destruct (Hact n) as (c & ? & ?); [done|done|].
    exists c. split; [done|]. by eapply Hgrow.
  - destruct (IH Hsub' st E1 st' E') as [Hfin' Hnexts];
      [done|by eapply finishedSettled_mono|done|done|].
    split; [done|]. intros m [->|Hm]%elem_of_cons Hne; [|by apply Hnexts].
    left. by eapply Hgrow.
Qed.

Lemma dfs_settled fuel :
  ∀ cur st E st' E',
    activeLinked st E → finishedSettled adj st E →
    dfs adj fuel cur st E = Some (st', E') →
    finishedSettled adj st' E'.
Proof.
  induction fuel as [|fuel IH]; intros cur st E st' E' Hact Hfin Hrun; [done|].
  simpl in Hrun.
  destruct (dfsLoop _ _ _ _ _) as [[st2 E2]|] eqn:Hloop; [|done].
  injection Hrun as <- <-.
  apply dfsLoop_settled in Hloop as [Hfin2 Hcur2].
  - intros x. rewrite finished_insert. case_decide as Hx; [|apply Hfin2].
    subst x. intros _ n Hn Hne. by apply Hcur2.
  - intros n s F s' F' Hcall. by apply dfs_frame in Hcall as [? _].
  - intros n s F s' F' ?? Hcall. by eapply IH.
  - done.
  - intros x. rewrite stateGet_insert. case_decide; [done|]. intros ? _.
    by apply Hact.
  - intros x. rewrite finished_insert. case_decide; [|apply Hfin].
    intros [_ ?]. done.
  - rewrite stateGet_insert, decide_True by done. done.
Qed.

Lemma dfsAll_settled fuel nodes :
  ∀ st E st' E',
    activeLinked st E → finishedSettled adj st E →
    dfsAll adj fuel nodes st E = Some (st', E') →
    finishedSettled adj st' E'.
Proof.
  induction nodes as [|n nodes IH]; intros st E st' E' Hact Hfin Hrun;
    simpl in Hrun.
  { by injection Hrun as <- <-. }
  case_bool_decide as Hn; [|by eapply IH].
  destruct (dfs adj fuel n st E) as [[st1 E1]|] eqn:Hcall; [|done].
  eapply IH; [| |exact Hrun].
  - eapply activeLinked_frame; [|done]. by apply dfs_frame in Hcall as [? _].
  - by eapply dfs_settled.
Qed.
End DfsSettled.

(** ** [computePathSubgraph]: seeds, adjacency, and the result *)

Lemma seedForward_spec l reachable :
  ∀ fw q fw' q',
    seedForward l reachable fw q = (fw', q') →
    (∀ x, mapGet fw' x = true ↔
          mapGet fw x = true ∨ (x ∈ l ∧ mapGet reachable x = true)) ∧
    (∀ x, x ∈ q' ↔ x ∈ q ∨ (x ∈ l ∧ mapGet reachable x = true)) ∧
    (length q' ≤ length q + length l)%nat ∧
    ((∀ x b, fw !! x = Some b → b = true) → ∀ x b, fw' !! x = Some b → b = true).
Proof.
  induction l as [|m l IH]; intros fw q fw' q' Hrun; simpl in Hrun.
  { injection Hrun as <- <-. split; [|split; [|split; [simpl; lia|done]]].
    - intros x. split; [by left|]. intros [?|[?%not_elem_of_nil _]]; done.
    - intros x. split; [by left|]. intros [?|[?%not_elem_of_nil _]]; done. }
  destruct (mapGet reachable m) eqn:Hm.
  - apply IH in Hrun as (Hfw & Hq & Hlen & Htrue).
    split; [|split; [|split]].
    + intros x. rewrite Hfw, mapGet_insert, elem_of_cons.
      case_decide; naive_solver.
    + intros x. rewrite Hq, elem_of_app, list_elem_of_singleton, elem_of_cons.
      naive_solver.
    + rewrite length_app in Hlen. simpl in *. lia.
    + intros Hall. apply Htrue. intros x b. rewrite lookup_insert.
      case_decide; [by intros [= <-]|apply Hall].
  - apply IH in Hrun as (Hfw & Hq & Hlen & Htrue).
    split; [|split; [|split; [simpl; lia|done]]].
    + intros x. rewrite Hfw, elem_of_cons. split; [naive_solver|].
      intros [?|[[->|?] ?]]; [by left|congruence|by right].
    + intros x. rewrite Hq, elem_of_cons. split; [naive_solver|].
      intros [?|[[->|?] ?]]; [by left|congruence|by right].
Qed.

Lemma addAdj_spec nodeSet tos :
  ∀ (a : Graph) from x y,
    y ∈ succs (addAdj nodeSet a from tos) x ↔
    y ∈ succs a x ∨ (x = from ∧ y ∈ tos ∧ mapGet nodeSet y = true).
Proof.
  unfold addAdj. induction tos as [|to tos IH]; intros a from x y; simpl.
  - split; [by left|]. intros [?|(_ & ?%not_elem_of_nil & _)]; done.
  - rewrite IH, elem_of_cons. destruct (mapGet nodeSet to) eqn:Hto.
    + rewrite succs_insert. case_decide as Hx.
      * subst x. rewrite elem_of_app, list_elem_of_singleton. naive_solver.
      * naive_solver.
    + split; [naive_solver|].
      intros [?|(? & [->|?] & ?)]; [by left|congruence|by right].
Qed.

Lemma addAdj_dom nodeSet tos :
  ∀ (a : Graph) from x,
    x ∈ dom (addAdj nodeSet a from tos) → x = from ∨ x ∈ dom a.
Proof.
  unfold addAdj. induction tos as [|to tos IH]; intros a from x; simpl.
  - by right.
  - intros [?|Hx]%IH; [by left|]. destruct (mapGet nodeSet to); [|by right].
    apply elem_of_dom in Hx. rewrite lookup_insert in Hx.
    case_decide; [by left|]. right. by apply elem_of_dom.
Qed.

Lemma sortStrings_elem l x : x ∈ sortStrings l ↔ x ∈ l.
Proof. unfold sortStrings. by rewrite merge_sort_Permutation. Qed.

Lemma sortAdj_spec (a : Graph) from x y :
  y ∈ succs (sortAdj a from) x ↔ y ∈ succs a x.
Proof.
  unfold sortAdj. destruct (a !! from) as [l|] eqn:Hl; [|done].
  rewrite succs_insert. case_decide as Hx; [|done]. subst x.
  unfold succs. rewrite Hl. simpl. apply sortStrings_elem.
Qed.

Lemma sortAdj_dom (a : Graph) from x : x ∈ dom (sortAdj a from) → x ∈ dom a.
Proof.
  unfold sortAdj. destruct (a !! from) as [l|] eqn:Hl; [|done].
  rewrite !elem_of_dom, lookup_insert. case_decide; [|done].
  subst x. by rewrite Hl.
Qed.

Lemma buildAdj_spec graph nodeSet nodes x y :
  y ∈ succs (buildAdj graph nodeSet nodes) x ↔
  x ∈ nodes ∧ y ∈ succs graph x ∧ mapGet nodeSet y = true.
Proof.
  unfold buildAdj.
  assert (∀ a : Graph,
            y ∈ succs (foldl (λ a from,
                   sortAdj (addAdj nodeSet a from (succs graph from)) from)
                 a nodes) x ↔
            y ∈ succs a x ∨
            (x ∈ nodes ∧ y ∈ succs graph x ∧ mapGet nodeSet y = true)) as Hgen.
  { induction nodes as [|n nodes IH]; intros a; simpl.
    - split; [by left|]. intros [?|[?%not_elem_of_nil _]]; done.
    - rewrite IH, sortAdj_spec, addAdj_spec, elem_of_cons. split.
      + intros [[?|(-> & ? & ?)]|(? & ? & ?)]; [by left|right..]; auto.
      + intros [?|([->|?] & ? & ?)]; [by left; left|left; right|right]; auto. }
  rewrite Hgen. unfold succs at 1. rewrite lookup_empty. simpl.
  split; [intros [?%not_elem_of_nil|?]; done|by right].
Qed.

Lemma buildAdj_dom graph nodeSet nodes x :
  x ∈ dom (buildAdj graph nodeSet nodes) → x ∈ nodes.
Proof.
  unfold buildAdj.
  assert (∀ a : Graph,
            x ∈ dom (foldl (λ a from,
                   sortAdj (addAdj nodeSet a from (succs graph from)) from)
                 a nodes) → x ∈ dom a ∨ x ∈ nodes) as Hgen.
  { induction nodes as [|n nodes IH]; intros a; simpl; [by left|].
    intros [[->|?]%sortAdj_dom%addAdj_dom|?]%IH; [right; by left|by left|].
    right. by right. }
  intros [Hx|?]%Hgen; [|done]. by rewrite dom_empty in Hx.
Qed.

Lemma keys_elem (m : BoolMap) x : x ∈ (map_to_list m).*1 ↔ x ∈ dom m.
Proof.
  rewrite elem_of_dom, list_elem_of_fmap. split.
  - intros ([k v] & -> & Hin). apply elem_of_map_to_list in Hin. by exists v.
  - intros [v Hv]. exists (x, v). split; [done|].
    by apply elem_of_map_to_list.
Qed.

(** Stepping along accepted successors from a start node is walking inside
    the reachability set. *)
Lemma forward_steps_inside graph reachable m n :
  mapGet reachable m = true →
  rtc (bfsStep (succs graph) (mapGet reachable)) m n ↔
  rtc (insideEdge graph reachable) m n.
Proof.
  intros Hm. split.
  - intros Hrtc. induction Hrtc as [|a b c [Hab Hb] Hbc IH]; [done|].
    eapply rtc_l; [|by apply IH]. by split.
  - intros Hrtc. eapply rtc_subrel; [|exact Hrtc].
    intros a b (? & _ & ?). by split.
Qed.

(** The last step into a node other than the origin can be taken from a
    different node. *)
Lemma rtc_last_step `{EqDecision A} (R : relation A) i n :
  rtc R i n → i ≠ n → ∃ u, rtc R i u ∧ R u n ∧ u ≠ n.
Proof.
  intros Hrtc. revert n Hrtc. apply (rtc_ind_r (λ n, i ≠ n → _)); [done|].
  intros y z Hiy Hyz IH Hiz. destruct (decide (y = z)) as [->|Hne].
  - by apply IH.
  - by exists y.
Qed.

(** Everything the two phases of [computePathSubgraph] establish, for every
    fuel above the number of start nodes plus the size of the reachability
    map. *)
Lemma computePathSubgraph_core mainModules (graph : Graph)
    (reachable : BoolMap) (k : nat) :
  ∃ nodeSet edgeSet,
    computePathSubgraph (S (length mainModules + size reachable) + k)
                        mainModules graph reachable
      = Some (nodeSet, edgeSet) ∧
    (∀ x b, nodeSet !! x = Some b → b = true) ∧
    (∀ n, mapGet nodeSet n = true ↔
          ∃ m, m ∈ mainModules ∧ mapGet reachable m = true ∧
               rtc (bfsStep (succs graph) (mapGet reachable)) m n) ∧
    (∃ fin, NoDup fin ∧
            ∀ e, e ∈ edgeSet → finishedBefore fin (From e) (To e)) ∧
    (∀ e, e ∈ edgeSet →
          mapGet nodeSet (From e) = true ∧ To e ∈ succs graph (From e) ∧
          mapGet nodeSet (To e) = true) ∧
    (∀ x n, mapGet nodeSet x = true → n ∈ succs graph x →
            mapGet nodeSet n = true → n ≠ x →
            edgeRel edgeSet x n ∨ ∃ c, c ≠ n ∧ edgeRel edgeSet n c).
Proof.
  unfold computePathSubgraph.
  set (fuel := (S (length mainModules + size reachable) + k)%nat).
  destruct (seedForward mainModules reachable ∅ []) as [fw0 q0] eqn:Hseed.
  apply seedForward_spec in Hseed as (Hfw0 & Hq0 & Hlen0 & Htrue0).
  set (seed := λ i, i ∈ mainModules ∧ mapGet reachable i = true).
  set (nb := succs graph). set (keep := mapGet reachable).
  assert (bfsInv nb keep seed fw0 q0) as Hinv0.
  { split; [|split; [|split; [|split]]].
    - intros x [?%not_elem_of_nil|?]%Hq0; [done|]. apply Hfw0. by right.
    - intros x [Hx|?]%Hfw0; [by rewrite mapGet_empty in Hx|]. by exists x.
    - intros x ?. apply Hfw0. by right.
    - intros x y [Hx|?]%Hfw0 Hq; [by rewrite mapGet_empty in Hx|].
      exfalso. apply Hq, Hq0. by right.
    - apply Htrue0. intros x b. by rewrite lookup_empty. }
  rewrite forwardLoop_gen.
  destruct (genLoop_total nb keep (dom reachable)) with
    (fuel := fuel) (m := fw0) (q := q0) as [nodeSet Hrun].
  { intros x y _ Hy. apply elem_of_dom. unfold keep, mapGet in Hy.
    by destruct (reachable !! y). }
  { pose proof (unmarked_size (dom reachable) fw0) as Hle.
    rewrite size_dom in Hle. simpl in Hlen0. unfold fuel. lia. }
  fold nb keep. rewrite Hrun.
  apply (genLoop_spec nb keep seed) in Hrun as [Hmem Htrue]; [|done].
  set (nodes := sortStrings (map_to_list nodeSet).*1).
  set (adj := buildAdj graph nodeSet nodes).
  assert (∀ x, x ∈ nodes ↔ mapGet nodeSet x = true) as Hnodes.
  { intros x. unfold nodes. rewrite sortStrings_elem, keys_elem, elem_of_dom.
    unfold mapGet. split.
    - intros [b Hb]. rewrite Hb. simpl. by eapply Htrue.
    - destruct (nodeSet !! x); [by eexists|done]. }
  assert (dom nodeSet ⊆ dom reachable) as Hdom.
  { intros x [b Hb]%elem_of_dom.
    assert (mapGet nodeSet x = true) as Hx.
    { unfold mapGet. rewrite Hb. simpl. by eapply Htrue. }
    apply Hmem in Hx as (i & [_ Hi] & Hrtc). apply elem_of_dom.
    apply rtc_inv_r in Hrtc as [<-|(y & _ & _ & Hk)].
    - unfold mapGet in Hi. by destruct (reachable !! i).
    - unfold keep, mapGet in Hk. by destruct (reachable !! x). }
  assert (size adj < fuel)%nat as Hfuel.
  { assert (dom adj ⊆ dom nodeSet) as Hsub.
    { intros x Hx%buildAdj_dom. fold nodes in Hx.
      apply Hnodes in Hx. apply elem_of_dom. unfold mapGet in Hx.
      by destruct (nodeSet !! x). }
    apply subseteq_size in Hsub, Hdom. rewrite !size_dom in *.
    unfold fuel. lia. }
  destruct (dfsAll_total adj fuel nodes Hfuel ∅ ∅) as [[st E] Hdfs].
  rewrite Hdfs. exists nodeSet, E. split; [done|]. split; [done|].
  split.
  { intros n. rewrite Hmem. unfold seed. split.
    - intros (m & [? ?] & ?). by exists m.
    - intros (m & ? & ? & ?). by exists m. }
  pose proof (dfsAll_frame adj fuel nodes _ _ _ _ Hdfs)
    as [(_ & _ & Hact & _ & Hedges) Hseen].
  assert (∀ x, stateGet st x ≠ visitActive) as Hidle.
  { intros x Hx%Hact. unfold stateGet in Hx. by rewrite lookup_empty in Hx. }
  split; [|split].
  - destruct (dfsAll_order adj fuel nodes ∅ ∅ [] st E)
      as (fin & Hnd & Hfin & Hsrc & Hord); [|done|].
    { split; [apply NoDup_nil_2|]. split; [|split].
      - intros x. split; [by intros ?%not_elem_of_nil|].
        intros [Hx _]. unfold stateGet in Hx. by rewrite lookup_empty in Hx.
      - by intros e ?%not_elem_of_empty.
      - by intros e ?%not_elem_of_empty. }
    exists fin. split; [done|]. intros e He. apply Hord; [done|].
    apply Hfin. split; [by apply Hsrc|apply Hidle].
  - intros e [?%not_elem_of_empty|He]%Hedges; [done|].
    apply buildAdj_spec in He as (Hfrom & ? & ?). by apply Hnodes in Hfrom.
  - intros x n Hx Hn Hnn Hne.
    apply (dfsAll_settled adj fuel nodes ∅ ∅ st E); [| |done| | |done].
    + intros y Hy. unfold stateGet in Hy. by rewrite lookup_empty in Hy.
    + intros y [Hy _]. unfold stateGet in Hy. by rewrite lookup_empty in Hy.
    + split; [|apply Hidle]. apply Hseen. by apply Hnodes.
    + apply buildAdj_spec. split; [by apply Hnodes|done].
Qed.


(** C7. For every graph, list of start nodes, target and reachability map
    (in particular the one computed for the target), every node of the
    returned node set is an endpoint of a recorded edge whose other endpoint
    is another node of the returned node set, or is a start node or the
    target; and both endpoints of every recorded edge are in the returned
    node set. *)
Theorem computePathSubgraph_connected mainModules (graph : Graph)
    (reachable : BoolMap) (target : string) (k : nat) :
  ∃ nodeSet edgeSet,
    computePathSubgraph (S (length mainModules + size reachable) + k)
                        mainModules graph reachable
      = Some (nodeSet, edgeSet) ∧
    (∀ n, nodeSet !! n = Some true →
          (∃ m, m ≠ n ∧ nodeSet !! m = Some true ∧
                (edgeRel edgeSet n m ∨ edgeRel edgeSet m n)) ∨
          n ∈ mainModules ∨ n = target) ∧
    (∀ e, e ∈ edgeSet →
          nodeSet !! From e = Some true ∧ nodeSet !! To e = Some true).
Proof.
  destruct (computePathSubgraph_core mainModules graph reachable k)
    as (nodeSet & edgeSet & Hrun & Htrue & Hmem & _ & Hends & Hsettled).
  exists nodeSet, edgeSet. split; [done|]. split.
  - intros n Hn. apply mapGet_true in Hn; [|done].
    destruct (decide (n ∈ mainModules)) as [?|Hstart]; [by right; left|].
    left. pose proof Hn as (i & Hi & Hri & Hrtc)%Hmem.
    apply rtc_last_step in Hrtc as (u & Hiu & [Hun _] & Hne);
      [|by intros ->].
    assert (mapGet nodeSet u = true) as Hu by (apply Hmem; by exists i).
    destruct (Hsettled u n Hu Hun Hn) as [Hrec|(c & Hc & Hrec)]; [done| |].
    + exists u. split; [done|]. split; [by apply mapGet_true|]. by right.
    + exists c. split; [done|]. split; [|by left].
      apply mapGet_true; [done|]. by apply Hends in Hrec as (_ & _ & ?).
  - intros e (? & _ & ?)%Hends. split; by apply mapGet_true.
Qed.

(** ** The order of [range] over the node set does not matter *)

(** Two deliveries of the same keys are sorted into the same [nodes], so
    the edge set does not depend on the iteration order of the map. *)
Lemma sortStrings_order_irrelevant l1 l2 :
  l1 ≡ₚ l2 → sortStrings l1 = sortStrings l2.
Proof.
  intros Hperm. unfold sortStrings.
  apply (Sorted_unique String.le).
  - apply Sorted_merge_sort, _.
  - apply Sorted_merge_sort, _.
  - by rewrite !merge_sort_Permutation.
Qed.

(** ** [getLongestChain] on an acyclic graph *)

Section LongestChainAcyclic.
Context (graph : Graph) (Hacyclic : acyclic graph).

Lemma chained_tc q : ∀ x y, chained graph (x :: q ++ [y]) → tc (edge graph) x y.
Proof.
  induction q as [|a q IH]; intros x y Hc; simpl in Hc.
  - apply tc_once. by destruct Hc.
  - destruct Hc as [He Hc]. eapply tc_l; [exact He|]. by apply IH.
Qed.

(** On an acyclic graph the node being entered is never among its
    ancestors. *)
Lemma ancestors_fresh (chain : Chain) cur :
  chained graph (chain ++ [cur]) → cur ∉ chain.
Proof.
  intros Hc Hin. apply list_elem_of_split in Hin as (l1 & l2 & ->).
  rewrite <- app_assoc in Hc. simpl in Hc.
  apply chained_app in Hc as [_ Hc].
  by apply chained_tc, Hacyclic in Hc.
Qed.

Lemma chainLoop_longest rec deps :
  (∀ d memo c memo',
      d ∈ deps → memoOk graph memo → rec d memo = Some (c, memo') →
      isLongest graph d c ∧ memoOk graph memo') →
  ∀ best memo best' memo',
    memoOk graph memo →
    chainLoop rec deps best memo = Some (best', memo') →
    memoOk graph memo' ∧ (length best ≤ length best')%nat ∧
    (best' = best ∨ ∃ d, d ∈ deps ∧ isLongest graph d best') ∧
    (∀ d p, d ∈ deps → head p = Some d → chained graph p →
            (length p ≤ length best')%nat).
Proof.
  induction deps as [|d deps IH]; intros Hrec best memo best' memo' Hmemo Hrun.
  { injection Hrun as <- <-. split; [done|]. split; [done|].
    split; [by left|]. by intros d p ?%not_elem_of_nil. }
  simpl in Hrun.
  destruct (rec d memo) as [[c memo1]|] eqn:Hcall; [|done].
  destruct (Hrec d memo c memo1) as [Hc Hmemo1]; [by left|done|done|].
  assert (∀ best0,
            chainLoop rec deps best0 memo1 = Some (best', memo') →
            memoOk graph memo' ∧ (length best0 ≤ length best')%nat ∧
            (best' = best0 ∨ ∃ d, d ∈ deps ∧ isLongest graph d best') ∧
            (∀ d p, d ∈ deps → head p = Some d → chained graph p →
                    (length p ≤ length best')%nat)) as IH'.
  { intros best0. apply IH; [|done]. intros ?????. apply Hrec. by right. }
  destruct (len best <? len c) eqn:Hlen; unfold len in Hlen.
  - apply Z.ltb_lt in Hlen.
    apply IH' in Hrun as (Hm & Hle & Hsrc & Hmax).
    split; [done|]. split; [lia|]. split.
    + right. destruct Hsrc as [->|(d' & ? & ?)].
      * exists d. split; [by left|done].
      * exists d'. split; [by right|done].
    + intros d' p [->|?]%elem_of_cons Hh Hp; [|by eapply Hmax].
      destruct Hc as (_ & _ & Hbest). specialize (Hbest p Hh Hp). lia.
  - apply Z.ltb_ge in Hlen.
    apply IH' in Hrun as (Hm & Hle & Hsrc & Hmax).
    split; [done|]. split; [done|]. split.
    + destruct Hsrc as [->|(d' & ? & ?)]; [by left|].
      right. exists d'. split; [by right|done].
    + intros d' p [->|?]%elem_of_cons Hh Hp; [|by eapply Hmax].
      destruct Hc as (_ & _ & Hbest). specialize (Hbest p Hh Hp). lia.
Qed.

Lemma getLongestChain_acyclic fuel :
  ∀ cur chain memo c memo',
    chained graph (chain ++ [cur]) → memoOk graph memo →
    getLongestChain graph fuel cur chain memo = Some (c, memo') →
    isLongest graph cur c ∧ memoOk graph memo'.
Proof.
  induction fuel as [|fuel IH]; intros cur chain memo c memo' Hc Hmemo Hrun;
    [done|].
  simpl in Hrun. destruct (memo !! cur) as [c0|] eqn:Hhit.
  { injection Hrun as <- <-. split; [by apply Hmemo|done]. }
  destruct (len (succs graph cur) =? 0) eqn:Hdeps.
  { injection Hrun as <- <-.
    assert (isLongest graph cur [cur]) as Hleaf.
    { split; [done|]. split; [done|]. intros p Hh Hp.
      destruct p as [|a p]; [done|]. injection Hh as ->.
      destruct p as [|b p]; [done|]. destruct Hp as [He _].
      unfold edge in He. destruct (succs graph cur); [|done].
      by apply not_elem_of_nil in He. }
    split; [done|]. intros x c0. rewrite lookup_insert.
    case_decide; [by intros [= <-]; subst x|apply Hmemo]. }
  unfold contains in Hrun. case_bool_decide as Hin.
  { by apply ancestors_fresh in Hin. }
  destruct (chainLoop _ _ _ _) as [[best memo1]|] eqn:Hloop; [|done].
  injection Hrun as <- <-.
  apply chainLoop_longest in Hloop as (Hmemo1 & _ & Hsrc & Hmax); [| |done].
  2:{ intros d m c0 m' Hd Hm Hcall. eapply IH; [|done|exact Hcall].
      by apply chained_snoc. }
  assert (isLongest graph cur (cur :: best)) as Hres.
  { split; [done|]. split.
    - apply chained_cons. split; [|by destruct Hsrc as [->|(? & ? & ? & ? & ?)]].
      intros y Hy. destruct Hsrc as [->|(d & Hd & Hh & _)]; [done|].
      rewrite Hh in Hy. by injection Hy as <-.
    - intros p Hh Hp. destruct p as [|a p]; [simpl; lia|].
      injection Hh as ->. destruct p as [|b p]; [simpl; lia|].
      destruct Hp as [He Hp]. specialize (Hmax b (b :: p) He eq_refl Hp).
      simpl in *. lia. }
  split; [done|]. intros x c0. rewrite lookup_insert.
  case_decide; [by intros [= <-]; subst x|apply Hmemo1].
Qed.

(** C3, first half. On an acyclic graph [getLongestChain(node, graph, nil,
    {})] returns a chain of successors that starts at the node and that no
    chain of successors starting at the node exceeds in length. *)
Lemma getLongestChain_acyclic_longest node (k : nat) :
  ∃ c memo,
    getLongestChain graph (S (size graph) + k) node [] ∅ = Some (c, memo) ∧
    head c = Some node ∧ chained graph c ∧ NoDup c ∧
    ∀ p, head p = Some node → chained graph p → (length p ≤ length c)%nat.
Proof.
  destruct (getLongestChain_total graph (S (size graph) + k) (dom graph)
              node [] ∅) as [[c memo] Hrun]; [rewrite size_dom; lia|done|].
  exists c, memo. split; [done|].
  apply getLongestChain_acyclic in Hrun as [(Hh & Hc & Hmax) _];
    [|done|by intros ??; rewrite lookup_empty].
  split; [done|]. split; [done|]. split; [|done].
  clear -Hc Hacyclic. induction c as [|a c IH]; [apply NoDup_nil_2|].
  apply NoDup_cons. split.
  - intros Hin. apply list_elem_of_split in Hin as (l1 & l2 & ->).
    apply (Hacyclic a), (chained_tc l1).
    change (a :: l1 ++ [a]) with ((a :: l1) ++ [a]).
    change (a :: l1 ++ a :: l2) with ((a :: l1) ++ a :: l2) in Hc.
    by apply chained_app in Hc as [? _].
  - apply IH. by apply chained_cons in Hc as [_ ?].
Qed.
End LongestChainAcyclic.

(** * Further properties of the code around the claims *)

(** ** [findAllPaths]: what a call leaves behind, and completeness under a
    budget that was not used up *)

Section FindAllPathsUnspent.
Context (D : Z) (target : string) (graph : Graph) (reachable : BoolMap)
        (N : Z).

Local Abbreviation fap := (findAllPaths D target graph reachable N).
Local Abbreviation loop := (pathsLoop reachable N).
Local Abbreviation openRoute := (openRoute D target graph reachable).

Lemma budgetSpent_app (o new : list (list string)) :
  budgetSpent N (o ++ new) = false → budgetSpent N o = false.
Proof.
  unfold budgetSpent, len. rewrite length_app, Nat2Z.inj_add.
  intros [H0|Hle]%andb_false_iff; apply andb_false_iff; [by left|right].
  apply Z.leb_gt. apply Z.leb_gt in Hle. lia.
Qed.

Lemma pathsLoop_complete_unspent rec (cp : list string) nexts :
  (∀ n v o v' o', n ∈ nexts → rec n v o = Some (v', o') →
                  fapFrame v o v' o') →
  (∀ n v o v' o' w, n ∈ nexts → rec n v o = Some (v', o') →
                    budgetSpent N o' = false →
                    openRoute cp n w v → cp ++ w ∈ o') →
  ∀ v o v' o',
    loop rec nexts v o = Some (v', o') → budgetSpent N o' = false →
    ∀ n w, n ∈ nexts → openRoute cp n w v → cp ++ w ∈ o'.
Proof.
  induction nexts as [|m nexts IH];
    intros Hfr Hrec v o v' o' Hrun Hleft n w Hn Hw.
  { by apply not_elem_of_nil in Hn. }
  simpl in Hrun.
  assert (∀ v o v' o', loop rec nexts v o = Some (v', o') →
                       fapFrame v o v' o') as Hrest.
  { apply pathsLoop_frame. intros ??????. apply Hfr. by right. }
  assert (∀ v o, loop rec nexts v o = Some (v', o') →
            ∀ n w, n ∈ nexts → openRoute cp n w v → cp ++ w ∈ o') as IH'.
  { intros v0 o0 Hl. eapply IH; [| |exact Hl|done].
    - intros ??????. apply Hfr. by right.
    - intros ???????. apply Hrec. by right. }
  destruct (mapGet reachable m) eqn:Hm; simpl in Hrun.
  - destruct (rec m v o) as [[v1 o1]|] eqn:Hcall; [|done].
    destruct (budgetSpent N o1) eqn:Hb.
    { injection Hrun as <- <-. congruence. }
    assert (fapFrame v o v1 o1) as [Hv1 _] by (eapply Hfr; [by left|done]).
    destruct (decide (n = m)) as [->|Hne].
    + apply Hrest in Hrun as [_ [new ->]]. apply elem_of_app. left.
      eapply Hrec; [by left|done|done|done].
    + apply elem_of_cons in Hn as [?|Hn]; [done|].
      eapply IH'; [done|done|]. by eapply openRoute_frame.
  - apply elem_of_cons in Hn as [->|Hn]; [|by eapply IH'].
    destruct Hw as (Hh&_&_&_&Hr&_). rewrite Hr in Hm; [done|].
    destruct w; [done|]. injection Hh as ->. by left.
Qed.

Lemma findAllPaths_complete_unspent fuel :
  ∀ s cp v o v' o' w,
    fap fuel s cp v o = Some (v', o') → budgetSpent N o' = false →
    openRoute cp s w v → cp ++ w ∈ o'.
Proof.
  induction fuel as [|fuel IH]; intros s cp v o v' o' w Hrun Hleft Hw; [done|].
  pose proof (findAllPaths_frame _ _ _ _ _ _ _ _ _ _ _ _ Hrun)
    as [_ [new Hnew]].
  assert (budgetSpent N o = false) as Hb.
  { rewrite Hnew in Hleft. by apply budgetSpent_app in Hleft. }
  simpl in Hrun. case_bool_decide as Hst.
  { injection Hrun as <- <-. subst s.
    destruct Hw as (Hh&Hl&Hnd&_).
    rewrite (route_at_target target w); [|done..].
    apply elem_of_app. right. by left. }
  destruct Hw as (Hh&Hl&Hnd&Hc&Hr&Hv&Hd).
  destruct w as [|a w]; [done|]. injection Hh as ->.
  destruct w as [|n w]; [by injection Hl as ->|].
  rewrite Hb, Hr in Hrun by by left. simpl in Hrun.
  assert (tooDeep D cp = false) as Hdeep.
  { unfold tooDeep. destruct (0 <? D) eqn:HD; [|done]. simpl.
    apply Z.ltb_lt in HD. specialize (Hd HD). unfold len in *. simpl in Hd.
    lia. }
  rewrite Hdeep, Hv in Hrun by by left.
  destruct (loop _ _ _ _) as [[v1 o1]|] eqn:Hloop; [|done].
  injection Hrun as <- <-.
  destruct Hc as [He Hc]. apply NoDup_cons in Hnd as [Hs Hnd].
  replace (cp ++ s :: n :: w) with ((cp ++ [s]) ++ n :: w)
    by by rewrite <- app_assoc.
  eapply (pathsLoop_complete_unspent _ (cp ++ [s]));
    [| |exact Hloop|done|exact He|].
  - intros ?????? Hcall. exact (findAllPaths_frame _ _ _ _ _ _ _ _ _ _ _ _ Hcall).
  - intros ??????? Hcall Hl' Hroute. exact (IH _ _ _ _ _ _ _ Hcall Hl' Hroute).
  - split; [done|]. split; [done|]. split; [done|]. split; [done|].
    split; [intros x Hx; apply Hr; by right|]. split.
    + intros x Hx. rewrite mapGet_insert. case_decide; [by subst x|].
      apply Hv. by right.
    + intros HD. specialize (Hd HD). unfold len in *.
      rewrite length_app. simpl in *. lia.
Qed.
End FindAllPathsUnspent.

(** X5. Any call of [findAllPaths], at any depth of the search, hands the
    visited map back reading exactly as it received it, and leaves the
    paths already in [out] in place, only appending after them. *)
Theorem findAllPaths_restores_state
    D target (graph : Graph) reachable N start cp v out (k : nat) :
  ∃ v' new,
    findAllPaths D target graph reachable N (S (size graph) + k) start cp v out
      = Some (v', out ++ new) ∧
    ∀ x, mapGet v' x = mapGet v x.
Proof.
  destruct (findAllPaths_total D target graph reachable N
              (S (size graph) + k) (dom graph) start cp v out)
    as [[v' out'] Hrun]; [rewrite size_dom; lia|done|].
  destruct (findAllPaths_frame _ _ _ _ _ _ _ _ _ _ _ _ Hrun) as [Hv [new ->]].
  by exists v', new.
Qed.

(** X6. When the outermost call returns without having used up its budget
    ([maxPaths <= 0], or fewer than [maxPaths] paths in the output), the
    output is complete: it holds every simple path from [start] to [target]
    whose nodes are all marked in the reachability map and which respects
    the depth limit. *)
Theorem findAllPaths_complete_when_budget_left
    D target (graph : Graph) reachable N start (k : nat) :
  ∃ v out,
    findAllPaths D target graph reachable N (S (size graph) + k) start [] ∅ []
      = Some (v, out) ∧
    (N ≤ 0 ∨ len out < N →
     ∀ p, head p = Some start → last p = Some target → NoDup p →
          chained graph p → (∀ x, x ∈ p → mapGet reachable x = true) →
          (0 < D → len p ≤ D + 1) → p ∈ out).
Proof.
  destruct (findAllPaths_top D target graph reachable N start k)
    as (v & out & Hrun & _).
  exists v, out. split; [done|].
  intros Hleft p Hh Hl Hnd Hc Hr Hd. change p with ([] ++ p).
  eapply findAllPaths_complete_unspent; [exact Hrun| |].
  - unfold budgetSpent. lia.
  - split; [done|]. split; [done|]. split; [done|]. split; [done|].
    split; [done|]. split.
    + intros x _. apply mapGet_empty.
    + intros HD. specialize (Hd HD). unfold len in *. simpl. lia.
Qed.

(** ** The search of [runWhy] over the main modules *)

Section SearchMains.
Context (D : Z) (target : string) (graph : Graph) (reachable : BoolMap).
(** The package-level variable [whyMaxPaths]. *)
Context (N : Z).

Local Abbreviation search := (searchMains D target graph reachable N).

Local Abbreviation searchPre := (searchPre N).

Lemma searchMains_total fuel mains :
  (size graph < fuel)%nat →
  ∀ allPaths searchMax, is_Some (search fuel mains allPaths searchMax).
Proof.
  intros Hfuel. induction mains as [|m mains IH]; intros allPaths searchMax;
    [by eexists|].
  simpl. destruct (mapGet reachable m); simpl; [|apply IH].
  destruct (findAllPaths_total D target graph reachable searchMax fuel
              (dom graph) m [] ∅ allPaths) as [[v o1] ->];
    [by rewrite size_dom|done|].
  repeat case_match; first [by eexists | apply IH].
Qed.

Lemma searchMains_spec fuel mains :
  ∀ allPaths searchMax res trunc,
    searchPre allPaths searchMax →
    search fuel mains allPaths searchMax = Some (res, trunc) →
    (∃ new, res = allPaths ++ new ∧
       Forall (λ p, ∃ m, m ∈ mains ∧ mapGet reachable m = true ∧
                         emitted D target graph reachable m p) new) ∧
    (0 < N → len res ≤ N) ∧
    (N ≤ 0 → trunc = false) ∧
    (trunc = false →
     ∀ m w, m ∈ mains → mapGet reachable m = true →
            openRoute D target graph reachable [] m w ∅ → w ∈ res).
Proof.
  induction mains as [|m mains IH];
    intros allPaths searchMax res trunc [Hpos Hneg] Hrun; simpl in Hrun.
  { injection Hrun as <- <-. split; [|split; [|split]].
    - exists []. by rewrite app_nil_r.
    - intros HN. destruct (Hpos HN). lia.
    - done.
    - by intros _ m w ?%not_elem_of_nil. }
  destruct (mapGet reachable m) eqn:Hm; simpl in Hrun.
  2:{ apply IH in Hrun as ((new & -> & Hnew) & Hlen & Htr & Hall); [|done].
      split; [|split; [done|split; [done|]]].
      - exists new. split; [done|]. eapply Forall_impl; [exact Hnew|].
        intros p (m' & ? & ? & ?). exists m'. split; [by right|done].
      - intros Hf m' w [->|?]%elem_of_cons Hm'; [congruence|].
        by eapply (Hall Hf). }
  destruct (findAllPaths _ _ _ _ _ _ _ _ _ _) as [[v o1]|] eqn:Hcall; [|done].
  pose proof Hcall as Hsound.
  apply (findAllPaths_sound D target graph reachable searchMax m) in Hsound
    as (_ & (new1 & -> & Hnew1) & Hbudget).
  2:{ split; [apply NoDup_nil_2|]. split; [apply not_elem_of_nil|].
      split; [by intros x ?%not_elem_of_nil|].
      split; [unfold len; simpl; lia|]. done. }
  2:{ by intros x ?%not_elem_of_nil. }
  set (o1 := allPaths ++ new1) in *.
  set (searchMax' := if 0 <? searchMax
                     then searchMax - (len o1 - len allPaths)
                     else searchMax) in *.
  assert (Forall (λ p, ∃ m', m' ∈ m :: mains ∧ mapGet reachable m' = true ∧
                            emitted D target graph reachable m' p) new1)
    as Hnew1'.
  { eapply Forall_impl; [exact Hnew1|]. intros p ?. exists m.
    split; [by left|done]. }
  assert (0 < N → len o1 ≤ searchMax ∧ searchMax ≤ N ∧
                  searchMax' = searchMax - (len o1 - len allPaths)) as Hstep.
  { intros HN. destruct (Hpos HN) as [Hs Hl]. split; [apply Hbudget; lia|].
    split; [lia|]. unfold searchMax'. destruct (0 <? searchMax) eqn:E; [done|].
    apply Z.ltb_ge in E. lia. }
  assert (len allPaths ≤ len o1) as Hgrow.
  { unfold o1, len. rewrite length_app. lia. }
  destruct ((0 <? searchMax') && (searchMax' <=? len o1)) eqn:Hb1.
  { injection Hrun as <- <-. split; [by exists new1|].
    split; [intros HN; destruct (Hstep HN); lia|]. split; [|done].
    intros HN. specialize (Hneg HN). unfold searchMax' in Hb1.
    destruct (0 <? searchMax) eqn:E; lia. }
  destruct ((searchMax' <=? 0) && (0 <? N)) eqn:Hb2.
  { injection Hrun as <- <-. split; [by exists new1|].
    split; [intros HN; destruct (Hstep HN); lia|]. split; [lia|done]. }
  apply IH in Hrun as ((new & -> & Hnew) & Hlen & Htr & Hall).
  2:{ split.
      - intros HN. destruct (Hstep HN) as (? & ? & ?). lia.
      - intros HN. specialize (Hneg HN). unfold searchMax'.
        destruct (0 <? searchMax) eqn:E; [lia|done]. }
  split; [|split; [done|split; [done|]]].
  - exists (new1 ++ new). unfold o1. rewrite app_assoc. split; [done|].
    apply Forall_app. split; [done|].
    eapply Forall_impl; [exact Hnew|].
    intros p (m' & ? & ? & ?). exists m'. split; [by right|done].
  - intros Hf m' w [->|?]%elem_of_cons Hm' Hw; [|by eapply (Hall Hf)].
    apply elem_of_app. left. change w with ([] ++ w).
    eapply findAllPaths_complete_unspent; [exact Hcall| |done].
    unfold budgetSpent.
    destruct (Z.lt_ge_cases 0 N) as [HN|HN].
    + destruct (Hstep HN) as (? & ? & ?). lia.
    + specialize (Hneg HN). lia.
Qed.
End SearchMains.

Lemma searchMains_top D target (graph : Graph) reachable N mains (k : nat) :
  ∃ res trunc,
    searchMains D target graph reachable N (S (size graph) + k) mains [] N
      = Some (res, trunc) ∧
    (∀ p, p ∈ res → ∃ m, m ∈ mains ∧ mapGet reachable m = true ∧
                         emitted D target graph reachable m p) ∧
    (0 < N → len res ≤ N) ∧
    (N ≤ 0 → trunc = false) ∧
    (trunc = false →
     ∀ m w, m ∈ mains → mapGet reachable m = true →
            openRoute D target graph reachable [] m w ∅ → w ∈ res).
Proof.
  destruct (searchMains_total D target graph reachable N
              (S (size graph) + k) mains ltac:(lia) [] N)
    as [[res trunc] Hrun].
  exists res, trunc. split; [done|].
  apply searchMains_spec in Hrun as ((new & -> & Hnew) & ? & ? & ?).
  - split; [|done]. intros p Hp. by eapply Forall_forall in Hnew.
  - split; [|done]. intros HN. unfold len. simpl. lia.
Qed.

(** X7. The text/JSON search of [runWhy] over all main modules never
    collects more than [whyMaxPaths] paths when that limit is positive,
    although every main module is searched with its own budget. *)
Theorem runWhy_search_bounded
    D target (graph : Graph) reachable N mains (k : nat) :
  ∃ res trunc,
    searchMains D target graph reachable N (S (size graph) + k) mains [] N
      = Some (res, trunc) ∧
    (0 < N → len res ≤ N).
Proof.
  destruct (searchMains_top D target graph reachable N mains k)
    as (res & trunc & Hrun & _ & Hlen & _).
  by exists res, trunc.
Qed.

(** X8. Every path the search of [runWhy] collects starts at a main module
    that is marked reachable, ends at the target, repeats no node and
    follows an edge of the graph at every step. *)
Theorem runWhy_search_paths
    D target (graph : Graph) reachable N mains (k : nat) :
  ∃ res trunc,
    searchMains D target graph reachable N (S (size graph) + k) mains [] N
      = Some (res, trunc) ∧
    ∀ p, p ∈ res →
      ∃ m, m ∈ mains ∧ mapGet reachable m = true ∧ head p = Some m ∧
           last p = Some target ∧ NoDup p ∧ chained graph p.
Proof.
  destruct (searchMains_top D target graph reachable N mains k)
    as (res & trunc & Hrun & Hem & _).
  exists res, trunc. split; [done|]. intros p (m & ? & ? & Hp)%Hem.
  apply emitted_spec in Hp as (? & ? & ? & ? & _). by exists m.
Qed.

(** X9. [result.Truncated] is never set when [whyMaxPaths] is zero or
    negative, and whenever it is not set the collected list is complete: it
    holds every simple path from a reachable main module to the target
    whose nodes are all marked in the reachability map and which respects
    the depth limit. *)
Theorem runWhy_search_truncated_flag
    D target (graph : Graph) reachable N mains (k : nat) :
  ∃ res trunc,
    searchMains D target graph reachable N (S (size graph) + k) mains [] N
      = Some (res, trunc) ∧
    (N ≤ 0 → trunc = false) ∧
    (trunc = false →
     ∀ m p, m ∈ mains → head p = Some m → last p = Some target → NoDup p →
            chained graph p → (∀ x, x ∈ p → mapGet reachable x = true) →
            (0 < D → len p ≤ D + 1) → p ∈ res).
Proof.
  destruct (searchMains_top D target graph reachable N mains k)
    as (res & trunc & Hrun & _ & _ & Hneg & Hall).
  exists res, trunc. split; [done|]. split; [done|].
  intros Hf m p Hm Hh Hl Hnd Hc Hr Hd. apply (Hall Hf m); [done| |].
  - apply Hr. destruct p; [done|]. injection Hh as ->. by left.
  - split; [done|]. split; [done|]. split; [done|]. split; [done|].
    split; [done|]. split.
    + intros x _. apply mapGet_empty.
    + intros HD. specialize (Hd HD). unfold len in *. simpl. lia.
Qed.

(** X10. Among the paths the search of [runWhy] collects, the [Direct] flag
    marks exactly the paths of two nodes, and such a path is a single edge
    of the graph from a main module to the target. *)
Theorem runWhy_direct_flag
    D target (graph : Graph) reachable N mains (k : nat) :
  ∃ res trunc,
    searchMains D target graph reachable N (S (size graph) + k) mains [] N
      = Some (res, trunc) ∧
    ∀ wp, wp ∈ toWhyPaths mains res →
      (Direct wp = true ↔ length (Path wp) = 2%nat) ∧
      (Direct wp = true →
       ∃ m, Path wp = [m; target] ∧ m ∈ mains ∧ edge graph m target).
Proof.
  destruct (searchMains_top D target graph reachable N mains k)
    as (res & trunc & Hrun & Hem & _).
  exists res, trunc. split; [done|].
  intros wp (p & -> & (m & Hm & _ & Hp)%Hem)%list_elem_of_fmap. simpl.
  apply emitted_spec in Hp as (Hh & Hl & _ & Hc & _).
  assert (isDirect mains p = true ↔ length p = 2%nat) as Hiff.
  { unfold isDirect, len, contains. rewrite Hh. simpl.
    rewrite bool_decide_eq_true_2 by done. rewrite andb_true_r.
    rewrite Z.eqb_eq. lia. }
  split; [done|]. intros Hd%Hiff.
  destruct p as [|a [|b [|c p]]]; try done.
  injection Hh as ->. injection Hl as ->. destruct Hc as [He _].
  by exists m.
Qed.

(** ** [result.DirectDeps] *)

Lemma directDeps_collect target entries :
  ∀ acc,
    foldl (λ deps (e : string * list string),
             foldl (λ deps to,
                      if bool_decide (to = target) then deps ++ [e.1]
                      else deps) deps e.2) acc entries
    = acc ++ (entries ≫= λ e,
                e.2 ≫= λ to, if bool_decide (to = target) then [e.1] else []).
Proof.
  induction entries as [|[from tos] entries IH]; intros acc; simpl.
  { by rewrite app_nil_r. }
  rewrite IH, app_assoc. f_equal. clear IH. revert acc.
  induction tos as [|to tos IHt]; intros acc; simpl; [by rewrite app_nil_r|].
  rewrite IHt. case_bool_decide; [by rewrite <- app_assoc|done].
Qed.

(** X11. [result.DirectDeps] lists exactly the nodes with an edge to the
    target, in ascending order, and is the same list whatever the order in
    which [range depGraph.Graph] delivers the entries. *)
Theorem directDeps_spec (graph : Graph) target entries :
  entries ≡ₚ map_to_list graph →
  (∀ x, x ∈ directDeps target entries ↔ edge graph x target) ∧
  Sorted String.le (directDeps target entries) ∧
  directDeps target entries = directDeps target (map_to_list graph).
Proof.
  intros Hperm. unfold directDeps. rewrite !directDeps_collect. simpl.
  split; [|split].
  - intros x. rewrite sortStrings_elem, Hperm, list_elem_of_bind.
    unfold edge, succs. split.
    + intros ([from tos] & (to & Hx & Hto)%list_elem_of_bind
                & Hin%elem_of_map_to_list). simpl in *.
      case_bool_decide; [|by apply not_elem_of_nil in Hx].
      apply list_elem_of_singleton in Hx. subst. by rewrite Hin.
    + intros Hx. destruct (graph !! x) as [tos|] eqn:Hg;
        [|by apply not_elem_of_nil in Hx].
      exists (x, tos). split; [|by apply elem_of_map_to_list].
      apply list_elem_of_bind. exists target. split; [|done].
      rewrite bool_decide_eq_true_2 by done. by left.
  - apply Sorted_merge_sort, _.
  - apply sortStrings_order_irrelevant. by rewrite Hperm.
Qed.

Lemma directDeps_spec_witness :
  map_to_list diamond ≡ₚ map_to_list diamond ∧
  (∀ x, x ∈ directDeps "D" (map_to_list diamond) ↔ edge diamond x "D") ∧
  Sorted String.le (directDeps "D" (map_to_list diamond)) ∧
  directDeps "D" (map_to_list diamond) = directDeps "D" (map_to_list diamond).
Proof.
  split; [reflexivity|].
  apply (directDeps_spec diamond "D" (map_to_list diamond)). reflexivity.
Defined.

(** ** [computeReachableToTarget] does not depend on the order of [range] *)

(** X1. The map returned by [computeReachableToTarget] is the same for every
    order in which [range graph] delivers the entries, and none of its
    entries reads [false]. *)
Theorem computeReachableToTarget_order_independent
    (graph : Graph) entries1 entries2 target (k : nat) :
  entries1 ≡ₚ map_to_list graph → entries2 ≡ₚ map_to_list graph →
  ∃ r,
    computeReachableToTarget (S (size graph) + k) target entries1 = Some r ∧
    computeReachableToTarget (S (size graph) + k) target entries2 = Some r ∧
    ∀ x b, r !! x = Some b → b = true.
Proof.
  intros H1 H2.
  destruct (computeReachableToTarget_core graph entries1 target k H1)
    as (r1 & Hrun1 & Hmem1 & Htrue1).
  destruct (computeReachableToTarget_core graph entries2 target k H2)
    as (r2 & Hrun2 & Hmem2 & Htrue2).
  exists r1. split; [done|]. split; [|done]. rewrite Hrun2. f_equal.
  apply map_eq. intros n.
  destruct (r1 !! n) as [b1|] eqn:E1, (r2 !! n) as [b2|] eqn:E2.
  - by rewrite (Htrue1 _ _ E1), (Htrue2 _ _ E2).
  - exfalso. pose proof (Htrue1 _ _ E1) as ->.
    apply mapGet_true, Hmem1, Hmem2 in E1; [|done].
    unfold mapGet in E1. by rewrite E2 in E1.
  - exfalso. pose proof (Htrue2 _ _ E2) as ->.
    apply mapGet_true, Hmem2, Hmem1 in E2; [|done].
    unfold mapGet in E2. by rewrite E1 in E2.
  - done.
Qed.

Lemma computeReachableToTarget_order_independent_witness :
  map_to_list diamond ≡ₚ map_to_list diamond ∧
  reverse (map_to_list diamond) ≡ₚ map_to_list diamond ∧
  ∃ r,
    computeReachableToTarget (S (size diamond) + 0) "D" (map_to_list diamond)
      = Some r ∧
    computeReachableToTarget (S (size diamond) + 0) "D"
                             (reverse (map_to_list diamond)) = Some r ∧
    ∀ x b, r !! x = Some b → b = true.
Proof.
  split; [reflexivity|]. split; [apply reverse_Permutation|].
  apply (computeReachableToTarget_order_independent diamond
           (map_to_list diamond) (reverse (map_to_list diamond)) "D" 0%nat).
  - reflexivity.
  - apply reverse_Permutation.
Defined.

(** ** More on the result of [computePathSubgraph] *)

(** X2. [forward] stays inside [reachable] (the comment on [nodeSet] in the
    source), and the node set is empty exactly when no main module is
    marked reachable, the case [runWhy] has already answered before it
    calls [computePathSubgraph]. *)
Theorem computePathSubgraph_within_reachable mainModules (graph : Graph)
    (reachable : BoolMap) (k : nat) :
  ∃ nodeSet edgeSet,
    computePathSubgraph (S (length mainModules + size reachable) + k)
                        mainModules graph reachable
      = Some (nodeSet, edgeSet) ∧
    (∀ n, nodeSet !! n = Some true → mapGet reachable n = true) ∧
    (nodeSet = ∅ ↔ anyMainReachable mainModules reachable = false).
Proof.
  destruct (computePathSubgraph_core mainModules graph reachable k)
    as (nodeSet & edgeSet & Hrun & Htrue & Hmem & _).
  exists nodeSet, edgeSet. split; [done|]. split.
  - intros n Hn%mapGet_true; [|done].
    apply Hmem in Hn as (m & _ & Hm & Hrtc).
    apply rtc_inv_r in Hrtc as [<-|(y & _ & _ & ?)]; done.
  - unfold anyMainReachable. split.
    + intros ->. apply not_true_iff_false. intros (m & Hin & Hm)%existsb_exists.
      apply list_elem_of_In in Hin.
      assert (mapGet ∅ m = true) as Habs by (apply Hmem; by exists m).
      by rewrite mapGet_empty in Habs.
    + intros Hnone. apply map_eq. intros n. rewrite lookup_empty.
      destruct (nodeSet !! n) as [b|] eqn:Hn; [|done]. exfalso.
      pose proof (Htrue _ _ Hn) as ->.
      apply mapGet_true, Hmem in Hn as (m & Hin & Hm & _); [|done].
      apply not_true_iff_false in Hnone. apply Hnone, existsb_exists.
      exists m. split; [by apply list_elem_of_In|done].
Qed.

(** X3. Every recorded edge is an edge of the input graph, and no recorded
    edge is a self-loop. *)
Theorem computePathSubgraph_edges_of_graph mainModules (graph : Graph)
    (reachable : BoolMap) (k : nat) :
  ∃ nodeSet edgeSet,
    computePathSubgraph (S (length mainModules + size reachable) + k)
                        mainModules graph reachable
      = Some (nodeSet, edgeSet) ∧
    ∀ e, e ∈ edgeSet → edge graph (From e) (To e) ∧ From e ≠ To e.
Proof.
  destruct (computePathSubgraph_core mainModules graph reachable k)
    as (nodeSet & edgeSet & Hrun & _ & _ & (fin & Hnd & Hord) & Hends & _).
  exists nodeSet, edgeSet. split; [done|]. intros e He.
  split; [by apply Hends in He as (_ & ? & _)|].
  intros Heq. apply Hord in He. rewrite Heq in He.
  by apply finishedBefore_irrefl in He.
Qed.

(** ** [computeReachableToTarget] followed by [computePathSubgraph] *)





(** ** The enumerated paths lie inside the computed subgraph *)

Lemma chain_prefix_inside (graph : Graph) (reachable : BoolMap) p :
  ∀ m x,
    chained graph p → (∀ y, y ∈ p → mapGet reachable y = true) →
    head p = Some m → x ∈ p → rtc (insideEdge graph reachable) m x.
Proof.
  induction p as [|a p IH]; intros m x Hc Hr Hh Hx; [done|].
  injection Hh as ->. apply elem_of_cons in Hx as [->|Hx]; [done|].
  destruct p as [|b p]; [by apply not_elem_of_nil in Hx|].
  destruct Hc as [He Hc]. eapply rtc_l; [|apply (IH b); try done].
  - split; [done|]. split; apply Hr; [by left|right; by left].
  - intros y Hy. apply Hr. by right.
Qed.

(** X12. When the target is marked in the reachability map, every node of
    every path that the search of [runWhy] enumerates belongs to the node
    set that [computePathSubgraph] computes for the same main modules. *)
Theorem enumerated_paths_inside_subgraph
    D target (graph : Graph) reachable N mains (k : nat) :
  mapGet reachable target = true →
  ∃ res trunc nodeSet edgeSet,
    searchMains D target graph reachable N (S (size graph) + k) mains [] N
      = Some (res, trunc) ∧
    computePathSubgraph (S (length mains + size reachable) + k)
                        mains graph reachable
      = Some (nodeSet, edgeSet) ∧
    ∀ p, p ∈ res → ∀ x, x ∈ p → nodeSet !! x = Some true.
Proof.
  intros Ht.
  destruct (searchMains_top D target graph reachable N mains k)
    as (res & trunc & Hsearch & Hem & _).
  destruct (computePathSubgraph_core mains graph reachable k)
    as (nodeSet & edgeSet & Hrun & Htrue & Hmem & _).
  exists res, trunc, nodeSet, edgeSet. split; [done|]. split; [done|].
  intros p (m & Hm & Hmr & Hp)%Hem x Hx.
  apply emitted_spec in Hp as (Hh & _ & _ & Hc & _ & Hr).
  rewrite mapGet_true, Hmem by done.
  exists m. split; [done|]. split; [done|].
  apply forward_steps_inside; [done|].
  eapply chain_prefix_inside; [done| |done|done].
  intros y [->|?]%Hr; done.
Qed.

Lemma enumerated_paths_inside_subgraph_witness :
  mapGet (allOf ["A"; "B"; "C"; "D"]) "D" = true ∧
  ∃ res trunc nodeSet edgeSet,
    searchMains 0 "D" diamond (allOf ["A"; "B"; "C"; "D"]) 0
                (S (size diamond) + 0) ["A"] [] 0 = Some (res, trunc) ∧
    computePathSubgraph
      (S (length ["A"] + size (allOf ["A"; "B"; "C"; "D"])) + 0)
      ["A"] diamond (allOf ["A"; "B"; "C"; "D"]) = Some (nodeSet, edgeSet) ∧
    ∀ p, p ∈ res → ∀ x, x ∈ p → nodeSet !! x = Some true.
Proof.
  split; [reflexivity|].
  apply (enumerated_paths_inside_subgraph 0 "D" diamond
           (allOf ["A"; "B"; "C"; "D"]) 0 ["A"] 0%nat).
  reflexivity.
Defined.

(** ** [getLongestChain] on any graph: the chain never repeats a node *)

Section LongestChainSimple.
Context (graph : Graph).

Lemma memoFrame_refl chain memo : memoFrame graph chain memo memo.
Proof. split; done. Qed.

Lemma memoFrame_trans chain memo memo1 memo2 :
  memoFrame graph chain memo memo1 → memoFrame graph chain memo1 memo2 →
  memoFrame graph chain memo memo2.
Proof.
  intros [Hs1 Hk1] [Hs2 Hk2]. split; [by etrans|].
  intros x Hx Hne. by rewrite Hk2, Hk1.
Qed.

Lemma memoSimple_insert memo cur c :
  memoSimple graph memo → memo !! cur = None →
  head c = Some cur → chained graph c → NoDup c →
  (∀ y, y ∈ c → y = cur ∨ is_Some (memo !! y)) →
  memoSimple graph (<[cur := c]> memo).
Proof.
  intros Hmemo Hnone Hh Hc Hnd Hin x c0. rewrite lookup_insert.
  case_decide as Hx.
  - intros [= <-]. subst x. split; [done|]. split; [done|]. split; [done|].
    intros y Hy. rewrite lookup_insert. case_decide; [by eexists|].
    by destruct (Hin y Hy).
  - intros Hc0. destruct (Hmemo x c0 Hc0) as (? & ? & ? & Hys).
    split; [done|]. split; [done|]. split; [done|].
    intros y Hy. rewrite lookup_insert. case_decide; [by eexists|].
    by apply Hys.
Qed.

Lemma chainLoop_simple rec (chain : Chain) deps :
  (∀ d memo c memo',
      d ∈ deps → memoSimple graph memo → rec d memo = Some (c, memo') →
      memoSimple graph memo' ∧ memoFrame graph chain memo memo' ∧
      (c = [] ∨ memo' !! d = Some c)) →
  ∀ best memo best' memo',
    memoSimple graph memo →
    chainLoop rec deps best memo = Some (best', memo') →
    memoSimple graph memo' ∧ memoFrame graph chain memo memo' ∧
    (best' = best ∨ ∃ d, d ∈ deps ∧ memo' !! d = Some best').
Proof.
  induction deps as [|d deps IH]; intros Hrec best memo best' memo' Hmemo Hrun.
  { injection Hrun as <- <-. split; [done|]. split; [apply memoFrame_refl|].
    by left. }
  simpl in Hrun.
  destruct (rec d memo) as [[c memo1]|] eqn:Hcall; [|done].
  destruct (Hrec d memo c memo1) as (Hmemo1 & Hfr1 & Hc); [by left|done|done|].
  assert (∀ best0,
            chainLoop rec deps best0 memo1 = Some (best', memo') →
            memoSimple graph memo' ∧ memoFrame graph chain memo1 memo' ∧
            (best' = best0 ∨ ∃ d, d ∈ deps ∧ memo' !! d = Some best')) as IH'.
  { intros best0. apply IH; [|done]. intros ?????. apply Hrec. by right. }
  destruct (len best <? len c) eqn:Hlen.
  - apply IH' in Hrun as (Hm & Hfr & Hsrc).
    split; [done|]. split; [by eapply memoFrame_trans|].
    right. destruct Hsrc as [->|(d' & ? & ?)].
    + exists d. split; [by left|]. destruct Hc as [->|Hc].
      * apply Z.ltb_lt in Hlen. unfold len in Hlen. simpl in Hlen. lia.
      * destruct Hfr as [Hsub _]. by eapply lookup_weaken.
    + exists d'. split; [by right|done].
  - apply IH' in Hrun as (Hm & Hfr & Hsrc).
    split; [done|]. split; [by eapply memoFrame_trans|].
    destruct Hsrc as [->|(d' & ? & ?)]; [by left|].
    right. exists d'. split; [by right|done].
Qed.

Lemma getLongestChain_simple fuel :
  ∀ cur chain memo c memo',
    memoSimple graph memo →
    getLongestChain graph fuel cur chain memo = Some (c, memo') →
    memoSimple graph memo' ∧ memoFrame graph chain memo memo' ∧
    ((cur ∈ chain ∧ c = []) ∨ memo' !! cur = Some c).
Proof.
  induction fuel as [|fuel IH]; intros cur chain memo c memo' Hmemo Hrun;
    [done|].
  simpl in Hrun. destruct (memo !! cur) as [c0|] eqn:Hhit.
  { injection Hrun as <- <-. split; [done|]. split; [apply memoFrame_refl|].
    by right. }
  destruct (len (succs graph cur) =? 0) eqn:Hdeps.
  { injection Hrun as <- <-.
    assert (succs graph cur = []) as Hleaf.
    { destruct (succs graph cur); [done|]. apply Z.eqb_eq in Hdeps.
      unfold len in Hdeps. simpl in Hdeps. lia. }
    split; [|split].
    - apply memoSimple_insert; try done; [apply NoDup_singleton|].
      intros y ->%list_elem_of_singleton. by left.
    - split; [by apply insert_subseteq|]. intros x Hx Hne.
      rewrite lookup_insert. case_decide; [by subst x|done].
    - right. by rewrite lookup_insert_eq. }
  unfold contains in Hrun. case_bool_decide as Hin.
  { injection Hrun as <- <-. split; [done|]. split; [apply memoFrame_refl|].
    by left. }
  destruct (chainLoop _ _ _ _) as [[best memo1]|] eqn:Hloop; [|done].
  injection Hrun as <- <-.
  apply (chainLoop_simple _ (chain ++ [cur])) in Hloop
    as (Hmemo1 & [Hsub1 Hkeep1] & Hsrc); [| |done].
  2:{ intros d m c0 m' Hd Hm Hcall. apply IH in Hcall as (? & ? & Hres);
        [|done].
      split; [done|]. split; [done|]. destruct Hres as [[_ ->]|?];
        [by left|by right]. }
  assert (succs graph cur ≠ []) as Hne.
  { intros Hnil. rewrite Hnil in Hdeps. done. }
  assert (memo1 !! cur = None) as Hfresh.
  { rewrite Hkeep1; [done| |done]. apply elem_of_app. right. by left. }
  split; [|split].
  - apply memoSimple_insert; try done.
    + destruct Hsrc as [->|(d & Hd & Hbest)]; [done|].
      apply chained_cons. destruct (Hmemo1 d best Hbest) as (Hh & Hc & _).
      split; [|done]. intros y Hy. rewrite Hh in Hy. by injection Hy as <-.
    + apply NoDup_cons. destruct Hsrc as [->|(d & Hd & Hbest)];
        [split; [apply not_elem_of_nil|apply NoDup_nil_2]|].
      destruct (Hmemo1 d best Hbest) as (_ & _ & Hnd & Hys).
      split; [|done]. intros [c0 Hc0]%Hys. congruence.
    + intros y [->|Hy]%elem_of_cons; [by left|]. right.
      destruct Hsrc as [->|(d & Hd & Hbest)];
        [by apply not_elem_of_nil in Hy|].
      destruct (Hmemo1 d best Hbest) as (_ & _ & _ & Hys). by apply Hys.
  - split.
    + etrans; [exact Hsub1|]. by apply insert_subseteq.
    + intros x Hx Hxne. rewrite lookup_insert. case_decide; [by subst x|].
      apply Hkeep1; [|done]. apply elem_of_app. by left.
  - right. by rewrite lookup_insert_eq.
Qed.
End LongestChainSimple.

(** X13. On every graph, with or without cycles, the chain that
    [getLongestChain(node, graph, nil, {})] returns starts at the node,
    follows an edge of the graph at every step and repeats no node; in
    particular it is never empty. *)
Theorem getLongestChain_simple_chain (graph : Graph) node (k : nat) :
  ∃ c memo,
    getLongestChain graph (S (size graph) + k) node [] ∅ = Some (c, memo) ∧
    head c = Some node ∧ chained graph c ∧ NoDup c.
Proof.
  destruct (getLongestChain_total graph (S (size graph) + k) (dom graph)
              node [] ∅) as [[c memo] Hrun]; [rewrite size_dom; lia|done|].
  exists c, memo. split; [done|].
  apply getLongestChain_simple in Hrun as (Hmemo & _ & [[Hin _]|Hc]).
  - by apply not_elem_of_nil in Hin.
  - by destruct (Hmemo node c Hc) as (? & ? & ? & _).
  - by intros ??; rewrite lookup_empty.
Qed.

(** ** [outputWhyDOT] *)

Lemma string_app_cons (c : ascii) (s t : string) :
  String c s +:+ t = String c (s +:+ t).
Proof. reflexivity. Qed.

Lemma string_app_nil_r (s : string) : s +:+ "" = s.
Proof.
  induction s as [|c s IH]; [done|]. by rewrite string_app_cons, IH.
Qed.

Lemma string_app_assoc (s t u : string) : (s +:+ t) +:+ u = s +:+ (t +:+ u).
Proof.
  induction s as [|c s IH]; [done|]. by rewrite !string_app_cons, IH.
Qed.

(** A character other than the space is never the start of a separator. *)
Lemma splitArrow_step acc (c : ascii) s :
  c ≠ " "%char →
  splitArrow acc (String c s) = splitArrow (acc +:+ String c "") s.
Proof.
  intros Hc.
  destruct c as [[|] [|] [|] [|] [|] [|] [|] [|]]; try reflexivity; done.
Qed.

Lemma splitArrow_spaceFree s :
  ∀ acc, spaceFree s → splitArrow acc s = [acc +:+ s].
Proof.
  induction s as [|c s IH]; intros acc Hs.
  - by rewrite string_app_nil_r.
  - destruct Hs as [Hc Hs]. rewrite splitArrow_step by done.
    rewrite IH by done. by rewrite string_app_assoc.
Qed.

(** Splitting an edge key gives the two endpoints back when they hold no
    space. *)
Lemma splitArrow_edgeKey from to :
  spaceFree from → spaceFree to →
  splitArrow "" (edgeKey from to) = [from; to].
Proof.
  intros Hfrom Hto. unfold edgeKey.
  assert (∀ acc, splitArrow acc (from +:+ " -> " +:+ to)
                 = [acc +:+ from; to]) as Hgen; [|apply (Hgen "")].
  induction from as [|c from IH]; intros acc.
  - change (splitArrow acc ("" +:+ " -> " +:+ to))
      with (acc :: splitArrow "" to).
    rewrite string_app_nil_r. f_equal. by apply splitArrow_spaceFree.
  - destruct Hfrom as [Hc Hfrom].
    rewrite string_app_cons, splitArrow_step by done.
    rewrite IH by done. by rewrite string_app_assoc.
Qed.

(** X15. When no endpoint of a recorded edge holds a space, the edge section
    that [outputWhyDOT] prints from a precomputed subgraph consists of
    exactly the lines ["from" -> "to";] of the recorded edges. *)
Theorem outputWhyDOT_edges_round_trip (result : WhyResult) nodeSet :
  NodeSet result = Some nodeSet →
  (∀ e, e ∈ EdgeSet result → spaceFree (From e) ∧ spaceFree (To e)) →
  ∀ line,
    line ∈ (dotEdgeList result ≫= edgeLines) ↔
    ∃ e, e ∈ EdgeSet result ∧ line = edgeLine (From e) (To e).
Proof.
  intros Hset Hfree line. unfold dotEdgeList, dotEdges. rewrite Hset.
  rewrite list_elem_of_bind. split.
  - intros (key & Hline & Hkey).
    rewrite sortStrings_elem, elem_of_elements, elem_of_list_to_set,
      list_elem_of_fmap in Hkey.
    destruct Hkey as (e & -> & He%elem_of_elements).
    exists e. split; [done|]. destruct (Hfree e He) as [Hf Ht].
    unfold edgeLines in Hline. rewrite splitArrow_edgeKey in Hline by done.
    by apply list_elem_of_singleton in Hline.
  - intros (e & He & ->). exists (edgeKey (From e) (To e)).
    destruct (Hfree e He) as [Hf Ht]. split.
    + unfold edgeLines. rewrite splitArrow_edgeKey by done. by left.
    + rewrite sortStrings_elem, elem_of_elements, elem_of_list_to_set,
        list_elem_of_fmap.
      exists e. split; [done|]. by apply elem_of_elements.
Qed.

Lemma outputWhyDOT_edges_round_trip_witness :
  let result :=
    {| Target := "D"; Found := true; Paths := []; DirectDeps := ["B"];
       MainModules := ["A"]; Truncated := false; TotalPaths := 2;
       NodeSet := Some (allOf ["A"; "B"; "D"]);
       EdgeSet := {[ mkEdge "A" "B"; mkEdge "B" "D" ]} |} in
  NodeSet result = Some (allOf ["A"; "B"; "D"]) ∧
  (∀ e, e ∈ EdgeSet result → spaceFree (From e) ∧ spaceFree (To e)) ∧
  ∀ line,
    line ∈ (dotEdgeList result ≫= edgeLines) ↔
    ∃ e, e ∈ EdgeSet result ∧ line = edgeLine (From e) (To e).
Proof.
  intros result.
  assert (∀ e, e ∈ EdgeSet result → spaceFree (From e) ∧ spaceFree (To e))
    as Hfree.
  { intros e [->%elem_of_singleton| ->%elem_of_singleton]%elem_of_union;
      simpl; repeat split; discriminate. }
  split; [reflexivity|]. split; [exact Hfree|].
  exact (outputWhyDOT_edges_round_trip result (allOf ["A"; "B"; "D"])
           eq_refl Hfree).
Defined.

(** X16. Without a precomputed subgraph, the output of [outputWhyDOT] depends
    on the set of paths only, not on their order: it lists every node of
    the paths once, in ascending order. *)
Theorem outputWhyDOT_path_order_irrelevant
    target found paths paths' directDeps mainModules truncated totalPaths
    edgeSet :
  paths ≡ₚ paths' →
  let result ps :=
    {| Target := target; Found := found; Paths := ps;
       DirectDeps := directDeps; MainModules := mainModules;
       Truncated := truncated; TotalPaths := totalPaths; NodeSet := None;
       EdgeSet := edgeSet |} in
  outputWhyDOT (result paths) = outputWhyDOT (result paths') ∧
  Sorted String.le (dotNodeList (result paths)) ∧
  NoDup (dotNodeList (result paths)) ∧
  ∀ x, x ∈ dotNodeList (result paths) ↔ ∃ wp, wp ∈ paths ∧ x ∈ Path wp.
Proof.
  intros Hperm result.
  assert (dotNodes (result paths) = dotNodes (result paths')) as Hnodes.
  { unfold dotNodes. simpl. apply list_to_set_perm_L. by rewrite Hperm. }
  assert (dotEdges (result paths) = dotEdges (result paths')) as Hedges.
  { unfold dotEdges. simpl. apply list_to_set_perm_L. by rewrite Hperm. }
  split; [|split; [|split]].
  - unfold outputWhyDOT, dotNodeList, dotEdgeList.
    by rewrite Hnodes, Hedges.
  - apply Sorted_merge_sort, _.
  - unfold dotNodeList, sortStrings. rewrite merge_sort_Permutation.
    apply NoDup_elements.
  - intros x. unfold dotNodeList, dotNodes. simpl.
    rewrite sortStrings_elem, elem_of_elements, elem_of_list_to_set,
      list_elem_of_bind.
    split; intros (wp & ? & ?); by exists wp.
Qed.

Lemma outputWhyDOT_path_order_irrelevant_witness :
  let p1 := {| Path := ["A"; "C"; "D"]; Direct := false |} in
  let p2 := {| Path := ["A"; "B"; "D"]; Direct := false |} in
  let result ps :=
    {| Target := "D"; Found := true; Paths := ps; DirectDeps := [];
       MainModules := ["A"]; Truncated := false; TotalPaths := 0;
       NodeSet := None; EdgeSet := ∅ |} in
  [p1; p2] ≡ₚ [p2; p1] ∧
  outputWhyDOT (result [p1; p2]) = outputWhyDOT (result [p2; p1]) ∧
  Sorted String.le (dotNodeList (result [p1; p2])) ∧
  NoDup (dotNodeList (result [p1; p2])) ∧
  ∀ x, x ∈ dotNodeList (result [p1; p2]) ↔ ∃ wp, wp ∈ [p1; p2] ∧ x ∈ Path wp.
Proof.
  intros p1 p2 result. split; [apply Permutation_swap|].
  exact (outputWhyDOT_path_order_irrelevant "D" true [p1; p2] [p2; p1] []
           ["A"] false 0 ∅ (Permutation_swap p2 p1 [])).
Defined.

(** The test [TestOutputWhyDOTDeterministicOrder]. *)
Example test_outputWhyDOT_deterministic_order :
  outputWhyDOT
    {| Target := "D"; Found := true;
       Paths := [ {| Path := ["A"; "C"; "D"]; Direct := false |};
                  {| Path := ["A"; "B"; "D"]; Direct := false |} ];
       DirectDeps := []; MainModules := ["A"]; Truncated := false;
       TotalPaths := 0; NodeSet := None; EdgeSet := ∅ |}
  = ["strict digraph {";
     "graph [overlap=false, label=" +:+ dq +:+ "Why: D" +:+ dq
       +:+ ", labelloc=t];";
     "node [shape=box, style=filled, fillcolor=white];"; ""; "// Nodes";
     nodeLine_of "A" "#ccffcc"; nodeLine_of "B" "white";
     nodeLine_of "C" "white"; nodeLine_of "D" "#ffffcc"; ""; "// Edges";
     edgeLine "A" "B"; edgeLine "A" "C"; edgeLine "B" "D"; edgeLine "C" "D";
     "}"].
Proof. by vm_compute. Qed.

(** ** An omitted edge would close a cycle *)

Section DfsClosed.
Context (adj : Graph).

Lemma edgeRel_mono (E E' : gset svgEdge) x y :
  E ⊆ E' → rtc (edgeRel E) x y → rtc (edgeRel E') x y.
Proof.
  intros HE. apply rtc_subrel. intros a b Hab. by apply HE.
Qed.

Lemma closed_mono (E E' : gset svgEdge) x :
  E ⊆ E' → closed adj E x → closed adj E' x.
Proof.
  intros HE Hc n Hn. destruct (Hc n Hn) as [?|?].
  - left. by apply HE.
  - right. by eapply edgeRel_mono.
Qed.

Lemma finishedClosed_mono st (E E' : gset svgEdge) :
  E ⊆ E' → finishedClosed adj st E → finishedClosed adj st E'.
Proof. intros HE Hc x Hx. eapply closed_mono; [done|by apply Hc]. Qed.

Lemma activeReach_frame st E st' E' cur :
  dfsFrame adj st E st' E' → activeReach st E cur → activeReach st' E' cur.
Proof.
  intros (HE & _ & Ha & _) Hreach a Ha'. eapply edgeRel_mono; [done|].
  by apply Hreach, Ha.
Qed.

Lemma dfsLoop_closed rec cur nexts :
  (∀ n st E st' E', rec n st E = Some (st', E') → dfsFrame adj st E st' E') →
  (∀ n st E st' E',
      activeReach st E n → finishedClosed adj st E →
      rec n st E = Some (st', E') → finishedClosed adj st' E') →
  (∀ n, n ∈ nexts → n ∈ succs adj cur) →
  ∀ st E st' E',
    activeReach st E cur → finishedClosed adj st E →
    dfsLoop rec cur nexts st E = Some (st', E') →
    finishedClosed adj st' E' ∧
    ∀ n, n ∈ nexts → edgeRel E' cur n ∨ rtc (edgeRel E') n cur.
Proof.
  intros Hfr Hrec.
  induction nexts as [|n nexts IH]; intros Hsub st E st' E' Hact Hfin Hrun.
  { injection Hrun as <- <-. split; [done|]. by intros n ?%not_elem_of_nil. }
  assert (∀ m, m ∈ nexts → m ∈ succs adj cur) as Hsub'
    by (intros ??; apply Hsub; by right).
  assert (∀ st1 E1, dfsLoop rec cur nexts st1 E1 = Some (st', E') → E1 ⊆ E')
    as Hgrow.
  { intros st1 E1 Hl.
    by destruct (dfsLoop_frame adj rec cur nexts Hfr Hsub' _ _ _ _ Hl). }
  set (E1 := {[ {| From := cur; To := n |} ]} ∪ E).
  assert (E ⊆ E1) as HE1 by apply union_subseteq_r.
  assert (edgeRel E1 cur n) as Hrec1.
  { apply elem_of_union. left. by apply elem_of_singleton. }
  rewrite dfsLoop_cons in Hrun. fold E1 in Hrun.
  case_decide as Hn0; [|case_decide as Hn1].
  - destruct (rec n st E1) as [[st2 E2]|] eqn:Hcall; [|done].
    pose proof (Hfr _ _ _ _ _ Hcall) as Hframe.
    apply Hrec in Hcall; [| |by eapply finishedClosed_mono].
    2:{ intros a Ha. eapply rtc_r; [|exact Hrec1].
        eapply edgeRel_mono; [exact HE1|]. by apply Hact. }
    destruct (IH Hsub' st2 E2 st' E') as [Hfin' Hnexts]; [|done|done|].
    { eapply activeReach_frame; [exact Hframe|].
      intros a Ha. eapply edgeRel_mono; [exact HE1|]. by apply Hact. }
    split; [done|]. intros m [->|Hm]%elem_of_cons; [|by apply Hnexts].
    left. destruct Hframe as [HE2 _]. by eapply Hgrow, HE2.
  - destruct (IH Hsub' st E st' E') as [Hfin' Hnexts]; [done..|].
    split; [done|]. intros m [->|Hm]%elem_of_cons; [|by apply Hnexts].
    right. eapply edgeRel_mono; [by eapply Hgrow|]. by apply Hact.
  - destruct (IH Hsub' st E1 st' E') as [Hfin' Hnexts];
      [|by eapply finishedClosed_mono|done|].
    { intros a Ha. eapply edgeRel_mono; [exact HE1|]. by apply Hact. }
    split; [done|]. intros m [->|Hm]%elem_of_cons; [|by apply Hnexts].
    left. by eapply Hgrow.
Qed.

Lemma dfs_closed fuel :
  ∀ cur st E st' E',
    activeReach st E cur → finishedClosed adj st E →
    dfs adj fuel cur st E = Some (st', E') →
    finishedClosed adj st' E'.
Proof.
  induction fuel as [|fuel IH]; intros cur st E st' E' Hact Hfin Hrun; [done|].
  simpl in Hrun.
  destruct (dfsLoop _ _ _ _ _) as [[st2 E2]|] eqn:Hloop; [|done].
  injection Hrun as <- <-.
  apply dfsLoop_closed in Hloop as [Hfin2 Hcur2].
  - intros x. rewrite finished_insert. case_decide as Hx; [|apply Hfin2].
    subst x. intros _ n Hn. by apply Hcur2.
  - intros n s F s' F' Hcall. by apply dfs_frame in Hcall as [? _].
  - intros n s F s' F' ?? Hcall. by eapply IH.
  - done.
  - intros a. rewrite stateGet_insert. case_decide; [by subst a|].
    apply Hact.
  - intros x. rewrite finished_insert. case_decide; [|apply Hfin].
    intros [_ ?]. done.
Qed.

Lemma dfsAll_closed fuel nodes :
  ∀ st E st' E',
    (∀ a, stateGet st a ≠ visitActive) → finishedClosed adj st E →
    dfsAll adj fuel nodes st E = Some (st', E') →
    finishedClosed adj st' E'.
Proof.
  induction nodes as [|n nodes IH]; intros st E st' E' Hidle Hfin Hrun;
    simpl in Hrun.
  { by injection Hrun as <- <-. }
  case_bool_decide as Hn; [|by eapply IH].
  destruct (dfs adj fuel n st E) as [[st1 E1]|] eqn:Hcall; [|done].
  eapply IH; [| |exact Hrun].
  - apply dfs_frame in Hcall as [(_ & _ & Ha & _) _].
    intros a Ha1%Ha. by apply Hidle in Ha1.
  - eapply dfs_closed; [|done|exact Hcall]. intros a Ha. by apply Hidle in Ha.
Qed.
End DfsClosed.

Lemma computePathSubgraph_unfold fuel mainModules (graph : Graph)
    (reachable : BoolMap) nodeSet edgeSet :
  computePathSubgraph fuel mainModules graph reachable
    = Some (nodeSet, edgeSet) →
  ∃ st,
    dfsAll (buildAdj graph nodeSet (sortStrings (map_to_list nodeSet).*1))
           fuel (sortStrings (map_to_list nodeSet).*1) ∅ ∅
    = Some (st, edgeSet).
Proof.
  unfold computePathSubgraph.
  destruct (seedForward _ _ _ _) as [fw0 q0].
  destruct (forwardLoop _ _ _ _ _) as [fw|]; [|done].
  destruct (dfsAll _ _ _ _ _) as [[st E]|] eqn:Hdfs; [|done].
  intros [= <- <-]. by exists st.
Qed.

(** X17. An edge of the graph between two nodes of the returned node set is
    left out of the returned edge set only when the recorded edges already
    lead from its head back to its tail, that is when it would close a
    cycle. *)
Theorem computePathSubgraph_omits_only_cycle_edges mainModules
    (graph : Graph) (reachable : BoolMap) (k : nat) :
  ∃ nodeSet edgeSet,
    computePathSubgraph (S (length mainModules + size reachable) + k)
                        mainModules graph reachable
      = Some (nodeSet, edgeSet) ∧
    ∀ u n, nodeSet !! u = Some true → nodeSet !! n = Some true →
           edge graph u n →
           edgeRel edgeSet u n ∨ rtc (edgeRel edgeSet) n u.
Proof.
  destruct (computePathSubgraph_core mainModules graph reachable k)
    as (nodeSet & edgeSet & Hrun & Htrue & _).
  exists nodeSet, edgeSet. split; [done|].
  apply computePathSubgraph_unfold in Hrun as [st Hdfs].
  set (nodes := sortStrings (map_to_list nodeSet).*1) in *.
  set (adj := buildAdj graph nodeSet nodes) in *.
  assert (∀ x, x ∈ nodes ↔ mapGet nodeSet x = true) as Hnodes.
  { intros x. unfold nodes. rewrite sortStrings_elem, keys_elem, elem_of_dom.
    unfold mapGet. split.
    - intros [b Hb]. rewrite Hb. simpl. by eapply Htrue.
    - destruct (nodeSet !! x); [by eexists|done]. }
  pose proof (dfsAll_frame adj _ nodes _ _ _ _ Hdfs)
    as [(_ & _ & Hact & _) Hseen].
  assert (∀ x, stateGet st x ≠ visitActive) as Hidle.
  { intros x Hx%Hact. unfold stateGet in Hx. by rewrite lookup_empty in Hx. }
  intros u n Hu%mapGet_true Hn%mapGet_true He; [|done..].
  assert (finishedClosed adj st edgeSet) as Hclosed.
  { eapply dfsAll_closed; [| |exact Hdfs].
    - intros a Ha. unfold stateGet in Ha. by rewrite lookup_empty in Ha.
    - intros y [Hy _]. unfold stateGet in Hy. by rewrite lookup_empty in Hy. }
  apply (Hclosed u).
  - split; [|apply Hidle]. apply Hseen. by apply Hnodes.
  - apply buildAdj_spec. split; [by apply Hnodes|done].
Qed.

(** ** No path is reported twice *)

Section FindAllPathsDistinct.
Context (D : Z) (target : string) (graph : Graph) (reachable : BoolMap)
        (N : Z).
Context (Hsuccs : map_Forall (λ _ l, NoDup l) graph).

Local Abbreviation fap := (findAllPaths D target graph reachable N).
Local Abbreviation loop := (pathsLoop reachable N).

Lemma succs_NoDup x : NoDup (succs graph x).
Proof.
  unfold succs. destruct (graph !! x) as [l|] eqn:Hx; [|apply NoDup_nil_2].
  by apply (Hsuccs x l).
Qed.

Lemma pathsLoop_distinct rec (cp : list string) nexts :
  NoDup nexts →
  (∀ n v o v' o',
      n ∈ nexts → rec n v o = Some (v', o') →
      ∃ new, o' = o ++ new ∧ NoDup new ∧
             ∀ p, p ∈ new → ∃ q, p = cp ++ n :: q) →
  ∀ v o v' o',
    loop rec nexts v o = Some (v', o') →
    ∃ new, o' = o ++ new ∧ NoDup new ∧
           ∀ p, p ∈ new → ∃ n q, n ∈ nexts ∧ p = cp ++ n :: q.
Proof.
  induction nexts as [|n nexts IH]; intros Hnd Hrec v o v' o' Hrun.
  { injection Hrun as <- <-. exists []. rewrite app_nil_r.
    split; [done|]. split; [apply NoDup_nil_2|].
    by intros p ?%not_elem_of_nil. }
  apply NoDup_cons in Hnd as [Hn Hnd]. simpl in Hrun.
  assert (∀ v o, loop rec nexts v o = Some (v', o') →
            ∃ new, o' = o ++ new ∧ NoDup new ∧
                   ∀ p, p ∈ new → ∃ n' q, n' ∈ n :: nexts ∧ p = cp ++ n' :: q)
    as IH'.
  { intros v0 o0 Hl.
    edestruct (IH Hnd) as (new & ? & ? & Hshape); [|exact Hl|].
    - intros ??????. apply Hrec. by right.
    - exists new. split; [done|]. split; [done|].
      intros p (n' & q & ? & ?)%Hshape. exists n', q. split; [by right|done]. }
  destruct (mapGet reachable n); simpl in Hrun; [|by eapply IH'].
  destruct (rec n v o) as [[v1 o1]|] eqn:Hcall; [|done].
  destruct (Hrec _ _ _ _ _ ltac:(by left) Hcall) as (new1 & -> & Hnd1 & Hsh1).
  destruct (budgetSpent N (o ++ new1)).
  { injection Hrun as <- <-. exists new1. split; [done|]. split; [done|].
    intros p (q & ->)%Hsh1. exists n, q. split; [by left|done]. }
  edestruct (IH Hnd) as (new2 & -> & Hnd2 & Hsh2); [|exact Hrun|].
  { intros ??????. apply Hrec. by right. }
  exists (new1 ++ new2). rewrite app_assoc. split; [done|]. split.
  - apply NoDup_app. split; [done|]. split; [|done].
    intros p (q1 & ->)%Hsh1 (n' & q2 & Hn' & Heq)%Hsh2.
    apply app_inv_head in Heq. injection Heq as -> _. done.
  - intros p [(q & ->)%Hsh1|(n' & q & ? & ->)%Hsh2]%elem_of_app.
    + exists n, q. split; [by left|done].
    + exists n', q. split; [by right|done].
Qed.

Lemma findAllPaths_distinct fuel :
  ∀ s cp v o v' o',
    fap fuel s cp v o = Some (v', o') →
    ∃ new, o' = o ++ new ∧ NoDup new ∧ ∀ p, p ∈ new → ∃ q, p = cp ++ s :: q.
Proof.
  induction fuel as [|fuel IH]; intros s cp v o v' o' Hrun; [done|].
  assert (∃ new : list (list string),
            o = o ++ new ∧ NoDup new ∧ ∀ p, p ∈ new → ∃ q, p = cp ++ s :: q)
    as Hnone.
  { exists []. rewrite app_nil_r. split; [done|]. split; [apply NoDup_nil_2|].
    by intros p ?%not_elem_of_nil. }
  simpl in Hrun. case_bool_decide as Hst.
  { injection Hrun as <- <-. exists [cp ++ [s]]. split; [done|].
    split; [apply NoDup_singleton|].
    intros p ->%list_elem_of_singleton. by exists []. }
  destruct (budgetSpent N o); [by injection Hrun as <- <-|].
  destruct (mapGet reachable s); simpl in Hrun; [|by injection Hrun as <- <-].
  destruct (tooDeep D cp); [by injection Hrun as <- <-|].
  destruct (mapGet v s); [by injection Hrun as <- <-|].
  destruct (loop _ _ _ _) as [[v1 o1]|] eqn:Hloop; [|done].
  injection Hrun as <- <-.
  apply (pathsLoop_distinct _ (cp ++ [s])) in Hloop
    as (new & -> & Hnd & Hshape).
  - exists new. split; [done|]. split; [done|].
    intros p (n & q & _ & ->)%Hshape. exists (n :: q).
    by rewrite <- app_assoc.
  - apply succs_NoDup.
  - intros n w p w' p' _ Hcall. exact (IH _ _ _ _ _ _ Hcall).
Qed.

End FindAllPathsDistinct.

Lemma searchMains_distinct D target (graph : Graph) reachable N fuel mains :
  map_Forall (λ _ l, NoDup l) graph → NoDup mains →
  ∀ allPaths searchMax res trunc,
    searchMains D target graph reachable N fuel mains allPaths searchMax
      = Some (res, trunc) →
    ∃ new, res = allPaths ++ new ∧ NoDup new ∧
           ∀ p, p ∈ new → ∃ m q, m ∈ mains ∧ p = m :: q.
Proof.
  intros Hsuccs.
  induction mains as [|m mains IH]; intros Hnd allPaths searchMax res trunc Hrun;
    simpl in Hrun.
  { injection Hrun as <- <-. exists []. rewrite app_nil_r.
    split; [done|]. split; [apply NoDup_nil_2|].
    by intros p ?%not_elem_of_nil. }
  apply NoDup_cons in Hnd as [Hm Hnd].
  assert (∀ allPaths searchMax,
            searchMains D target graph reachable N fuel mains allPaths
                        searchMax = Some (res, trunc) →
            ∃ new, res = allPaths ++ new ∧ NoDup new ∧
                   ∀ p, p ∈ new → ∃ m' q, m' ∈ m :: mains ∧ p = m' :: q)
    as IH'.
  { intros a0 s0 Hl. destruct (IH Hnd _ _ _ _ Hl) as (new & ? & ? & Hsh).
    exists new. split; [done|]. split; [done|].
    intros p (m' & q & ? & ?)%Hsh. exists m', q. split; [by right|done]. }
  destruct (mapGet reachable m); simpl in Hrun; [|by eapply IH'].
  destruct (findAllPaths _ _ _ _ _ _ _ _ _ _) as [[v o1]|] eqn:Hcall; [|done].
  apply findAllPaths_distinct in Hcall as (new1 & -> & Hnd1 & Hsh1); [|done].
  assert (∃ new, allPaths ++ new1 = allPaths ++ new ∧ NoDup new ∧
                 ∀ p, p ∈ new → ∃ m' q, m' ∈ m :: mains ∧ p = m' :: q)
    as Hstop.
  { exists new1. split; [done|]. split; [done|].
    intros p (q & ->)%Hsh1. exists m, q. split; [by left|done]. }
  assert (∀ s,
            searchMains D target graph reachable N fuel mains
                        (allPaths ++ new1) s = Some (res, trunc) →
            ∃ new, res = allPaths ++ new ∧ NoDup new ∧
                   ∀ p, p ∈ new → ∃ m' q, m' ∈ m :: mains ∧ p = m' :: q)
    as Hgo.
  { intros s Hl.
    destruct (IH Hnd _ _ _ _ Hl) as (new2 & -> & Hnd2 & Hsh2).
    exists (new1 ++ new2). rewrite app_assoc. split; [done|]. split.
    - apply NoDup_app. split; [done|]. split; [|done].
      intros p (q1 & ->)%Hsh1 (m' & q2 & Hm' & Heq)%Hsh2.
      simpl in Heq. injection Heq as -> _. done.
    - intros p [(q & ->)%Hsh1|(m' & q & ? & ->)%Hsh2]%elem_of_app.
      + exists m, q. split; [by left|done].
      + exists m', q. split; [by right|done]. }
  repeat case_match;
    first [ injection Hrun as <- <-; exact Hstop
          | exact (Hgo _ Hrun) ].
Qed.

(** X18. When no successor list of the graph lists a node twice,
    [findAllPaths] reports no path twice; and when in addition no main
    module is listed twice, neither does the search of [runWhy] over all
    main modules. *)
Theorem runWhy_search_no_duplicates
    D target (graph : Graph) reachable N start mains (k : nat) :
  map_Forall (λ _ l, NoDup l) graph →
  (∃ v out,
     findAllPaths D target graph reachable N (S (size graph) + k) start [] ∅ []
       = Some (v, out) ∧ NoDup out) ∧
  (NoDup mains →
   ∃ res trunc,
     searchMains D target graph reachable N (S (size graph) + k) mains [] N
       = Some (res, trunc) ∧ NoDup res).
Proof.
  intros Hsuccs. split.
  - destruct (findAllPaths_top D target graph reachable N start k)
      as (v & out & Hrun & _).
    exists v, out. split; [done|].
    by apply findAllPaths_distinct in Hrun as (new & -> & ? & _).
  - intros Hnd.
    destruct (searchMains_top D target graph reachable N mains k)
      as (res & trunc & Hrun & _).
    exists res, trunc. split; [done|].
    by apply searchMains_distinct in Hrun as (new & -> & ? & _).
Qed.

Lemma runWhy_search_no_duplicates_witness :
  map_Forall (λ _ l, NoDup l) diamond ∧
  (∃ v out,
     findAllPaths 0 "D" diamond (allOf ["A"; "B"; "C"; "D"]) 0
                  (S (size diamond) + 0) "A" [] ∅ [] = Some (v, out) ∧
     NoDup out) ∧
  NoDup ["A"] ∧
  (∃ res trunc,
     searchMains 0 "D" diamond (allOf ["A"; "B"; "C"; "D"]) 0
                 (S (size diamond) + 0) ["A"] [] 0 = Some (res, trunc) ∧
     NoDup res).
Proof.
  assert (map_Forall (λ _ l, NoDup l) diamond) as Hsuccs.
  { apply (bool_decide_unpack _). by vm_compute. }
  assert (NoDup ["A"]) as Hmains.
  { apply (bool_decide_unpack _). by vm_compute. }
  destruct (runWhy_search_no_duplicates 0 "D" diamond
              (allOf ["A"; "B"; "C"; "D"]) 0 "A" ["A"] 0%nat Hsuccs)
    as [Hone Hall].
  split; [exact Hsuccs|].
  split; [exact Hone|].
  split; [exact Hmains|].
  exact (Hall Hmains).
Defined.

(** ** [getLongestChain] on an acyclic graph, with an example *)

Lemma acyclic_by_rank (graph : Graph) (rank : string → nat) :
  (∀ x y, edge graph x y → (rank y < rank x)%nat) → acyclic graph.
Proof.
  intros Hrank x Hcyc.
  assert (∀ a b, tc (edge graph) a b → (rank b < rank a)%nat) as Htc.
  { intros a b Hab. induction Hab as [a b Hab|a b c Hab _ IH].
    - by apply Hrank.
    - apply Hrank in Hab. lia. }
  apply Htc in Hcyc. lia.
Qed.

Lemma diamond_acyclic : acyclic diamond.
Proof.
  apply (acyclic_by_rank _
           (λ x, if decide (x = "A") then 2
                 else if decide (x = "B" ∨ x = "C") then 1 else 0)%nat).
  intros x y. unfold edge, succs, diamond.
  rewrite !lookup_insert, lookup_singleton.
  repeat case_decide; subst; simpl; rewrite ?elem_of_cons, ?elem_of_nil;
    intros Hy; repeat destruct Hy as [Hy|Hy]; subst; try done;
    repeat case_decide; try lia; naive_solver.
Qed.

(** X14. On a graph without a directed cycle, [getLongestChain(node, graph,
    nil, {})] returns a chain of successors that starts at the node, and no
    chain of successors starting at the node is longer. *)
Theorem getLongestChain_longest_when_acyclic (graph : Graph) node (k : nat) :
  acyclic graph →
  ∃ c memo,
    getLongestChain graph (S (size graph) + k) node [] ∅ = Some (c, memo) ∧
    head c = Some node ∧ chained graph c ∧ NoDup c ∧
    ∀ p, head p = Some node → chained graph p → (length p ≤ length c)%nat.
Proof.
  intros Hacyclic. exact (getLongestChain_acyclic_longest graph Hacyclic node k).
Qed.

Lemma getLongestChain_longest_when_acyclic_witness :
  acyclic diamond ∧
  ∃ c memo,
    getLongestChain diamond (S (size diamond) + 0) "A" [] ∅ = Some (c, memo) ∧
    head c = Some "A" ∧ chained diamond c ∧ NoDup c ∧
    ∀ p, head p = Some "A" → chained diamond p → (length p ≤ length c)%nat.
Proof.
  split; [exact diamond_acyclic|].
  exact (getLongestChain_longest_when_acyclic diamond "A" 0%nat
           diamond_acyclic).
Defined.
